(** * Streaming text segmentation of [CompletionManager.process_text_stream]

    Shallow embedding of [src/completion_manager.py], lines 133-205: the
    routine that consumes a stream of text chunks, routes the text found
    between marker pairs to the markers' callbacks and the sentences found
    outside of them to the sentence callback, and returns the unmodified
    input text.

    Python strings are modelled as [string] (characters below code point
    256); the closure variables [full_text], [buffer] and [active_markers]
    become the fields of an explicit [state]; a callback is taken to
    return normally, and its invocation is recorded in a log of [call]s,
    in invocation order; the exceptions that the string primitives raise
    are results of their own.  The [while] loops take fuel, and the
    routine is run with an amount of it that is proved never to run out.

    The other methods of the class (lines 5-131) are embedded as well,
    with the client, the configuration and [maintain_token_limit], which
    are not part of the file, as parameters. *)

From Stdlib Require Import String Ascii List Bool Arith ZArith Lia.
Import ListNotations.
Local Open Scope string_scope.

(** ** Python string primitives *)

Module Str.

(** [str.isspace] on one character, which is also what [\s] matches in a
    [str] pattern: the code points 9-13, 28-32, 133 and 160. *)
Definition isspace (c : ascii) : bool :=
  let n := nat_of_ascii c in
  (((9 <=? n) && (n <=? 13)) || ((28 <=? n) && (n <=? 32))
   || (n =? 133) || (n =? 160))%nat.

Definition newline : ascii := ascii_of_nat 10.

(** The character class [[.!?]]. *)
Definition is_terminator (c : ascii) : bool :=
  (c =? ".")%char || (c =? "!")%char || (c =? "?")%char.

(** Truth value of a string: [bool(s)]. *)
Definition truthy (s : string) : bool :=
  match s with EmptyString => false | String _ _ => true end.

(** [s[n:]]. *)
Fixpoint drop (n : nat) (s : string) : string :=
  match n, s with
  | 0, _ => s
  | S _, EmptyString => EmptyString
  | S n', String _ s' => drop n' s'
  end.

(** [sub in s]. *)
Fixpoint contains (sub s : string) : bool :=
  prefix sub s
  || match s with
     | EmptyString => false
     | String _ s' => contains sub s'
     end.

(** The split of [s] around the leftmost occurrence of [sep]. *)
Fixpoint split_first (sep s : string) : option (string * string) :=
  if prefix sep s then Some (EmptyString, drop (String.length sep) s)
  else match s with
       | EmptyString => None
       | String c s' =>
           match split_first sep s' with
           | Some (before, rest) => Some (String c before, rest)
           | None => None
           end
       end.

(** [s.partition(sep)]; [None] stands for the [ValueError] that an empty
    separator raises. *)
Definition partition (sep s : string) : option (string * string * string) :=
  match sep with
  | EmptyString => None
  | _ => match split_first sep s with
         | Some (before, rest) => Some (before, sep, rest)
         | None => Some (s, EmptyString, EmptyString)
         end
  end.

Fixpoint lstrip (s : string) : string :=
  match s with
  | EmptyString => EmptyString
  | String c s' => if isspace c then lstrip s' else s
  end.

Fixpoint rstrip (s : string) : string :=
  match s with
  | EmptyString => EmptyString
  | String c s' =>
      match rstrip s' with
      | EmptyString => if isspace c then EmptyString else String c EmptyString
      | r => String c r
      end
  end.

(** [s.strip()]. *)
Definition strip (s : string) : string := rstrip (lstrip s).

(** ** The sentence pattern

    [re.compile(r'(.*?[.!?](?:\s|$)|\n)', re.DOTALL)], applied with
    [match], which anchors at the start of the buffer. *)

(** Length of the match of the first alternative, [.*?[.!?](?:\s|$)].
    The lazy [.*?] (any character, under DOTALL) is extended one character
    at a time; at each position the class [[.!?]] must match and then
    either [\s] consumes one whitespace character or [$] matches without
    consuming.  [\s] is tried before [$], so [$] only ever decides at the
    very end of the string (before a final newline [\s] has already
    matched). *)
Fixpoint lazy_terminator (s : string) : option nat :=
  match s with
  | EmptyString => None
  | String c rest =>
      let extend := option_map S (lazy_terminator rest) in
      if is_terminator c then
        match rest with
        | EmptyString => Some 1
        | String d _ => if isspace d then Some 2 else extend
        end
      else extend
  end.

(** [sentence_pattern.match(buffer)], giving [match.group(1)]: the first
    alternative if it matches anywhere from the start, else the second
    alternative, a newline that is the first character of the buffer. *)
Definition sentence_pattern_match (buffer : string) : option string :=
  match lazy_terminator buffer with
  | Some n => Some (substring 0 n buffer)
  | None =>
      match buffer with
      | String c _ =>
          if (c =? newline)%char then Some (String newline EmptyString) else None
      | EmptyString => None
      end
  end.

(** A string is trimmed when neither its first nor its last character is
    whitespace. *)
Definition trimmed (t : string) : Prop :=
  (forall c r, t = String c r -> isspace c = false)
  /\ (forall r d, t = r ++ String d "" -> isspace d = false).

(** A buffer and a prefix of it that ends a sentence: a run of characters,
    a terminator and then either the end of the buffer or one whitespace
    character, which belongs to the prefix. *)
Inductive sentence_prefix : string -> string -> Prop :=
| sentence_at_end (run : string) (t : ascii) :
    is_terminator t = true ->
    sentence_prefix (run ++ String t "") (run ++ String t "")
| sentence_before_space (run : string) (t w : ascii) (rest : string) :
    is_terminator t = true -> isspace w = true ->
    sentence_prefix (run ++ String t (String w rest)) (run ++ String t (String w "")).

End Str.

(** ** The engine state and its results *)

(** One callback invocation.  A marker callback is identified by a number
    (the callable the caller put in the marker tuple). *)
Inductive call : Type :=
| SentenceCall (text : string)
| MarkerCall (callback : nat) (text : string).

(** A marker tuple [(start, end, callback)]; the callback may be [None]. *)
Definition marker : Type := (string * string * option nat)%type.

Definition marker_start (m : marker) : string := fst (fst m).
Definition marker_end (m : marker) : string := snd (fst m).
Definition marker_callback (m : marker) : option nat := snd m.

(** The local variables of [process_text_stream] that its two nested
    functions read and write, and the log of the calls made so far. *)
Record state : Type := mkState {
  full_text : string;
  buffer : string;
  active_markers : list marker;
  calls : list call
}.

Definition initial : state :=
  {| full_text := ""; buffer := ""; active_markers := []; calls := [] |}.

Definition set_buffer (b : string) (st : state) : state :=
  {| full_text := full_text st; buffer := b;
     active_markers := active_markers st; calls := calls st |}.

Definition set_active_markers (l : list marker) (st : state) : state :=
  {| full_text := full_text st; buffer := buffer st;
     active_markers := l; calls := calls st |}.

Definition record_call (c : call) (st : state) : state :=
  {| full_text := full_text st; buffer := buffer st;
     active_markers := active_markers st; calls := calls st ++ [c] |}.

Inductive exn : Type := ValueError | IndexError.

(** What a piece of the routine yields: a value, an exception (with the
    calls made before it was raised), or the exhaustion of the fuel that
    bounds the [while] loop of the model. *)
Inductive outcome (A : Type) : Type :=
| Ok (a : A)
| Raise (e : exn) (log : list call)
| Timeout.
Arguments Ok {A} a.
Arguments Raise {A} e log.
Arguments Timeout {A}.

(** [l.pop(i)] for [0 <= i]: the list without its [i]-th element; [None]
    stands for the [IndexError] of an index out of range. *)
Fixpoint pop (i : nat) (l : list marker) : option (list marker) :=
  match i, l with
  | _, [] => None
  | 0, _ :: l' => Some l'
  | S i', m :: l' => option_map (cons m) (pop i' l')
  end.

(** ** The two nested functions *)

(** [if callback: callback(marked_text)]. *)
Definition invoke_marker (callback : option nat) (text : string) (st : state) : state :=
  match callback with
  | Some k => record_call (MarkerCall k text) st
  | None => st
  end.

(** The [for i, (start, end, callback) in enumerate(active_markers)] loop
    of [process_active_markers], from index [i] on. *)
Fixpoint scan_active_markers (i : Z) (ms : list marker) (st : state)
  : outcome (Z * state) :=
  match ms with
  | [] => Ok ((-1)%Z, st)
  | (_, end_, callback) :: ms' =>
      if Str.contains end_ (buffer st) then
        match Str.partition end_ (buffer st) with
        | None => Raise ValueError (calls st)
        | Some (marked_text, _, rest) =>
            if Str.truthy (Str.strip marked_text) then
              Ok (i, set_buffer rest (invoke_marker callback marked_text st))
            else scan_active_markers (i + 1)%Z ms' st
        end
      else scan_active_markers (i + 1)%Z ms' st
  end.

Definition process_active_markers (st : state) : outcome (Z * state) :=
  scan_active_markers 0%Z (active_markers st) st.

(** The [for start, end, callback in marker_tuples] loop of
    [process_new_markers_or_sentences]; [Ok None] when the loop ends
    without returning. *)
Fixpoint scan_marker_tuples (ms : list marker) (st : state)
  : outcome (option state) :=
  match ms with
  | [] => Ok None
  | (start, end_, callback) :: ms' =>
      if Str.contains start (buffer st) then
        match Str.partition start (buffer st) with
        | None => Raise ValueError (calls st)
        | Some (_, _, rest) =>
            Ok (Some (set_active_markers
                        (active_markers st ++ [(start, end_, callback)])
                        (set_buffer rest st)))
        end
      else scan_marker_tuples ms' st
  end.

(** [if sentence_callback and text.strip(): sentence_callback(text.strip())].
    [sentence_callback] tells whether the caller gave a callback. *)
Definition emit_sentence (sentence_callback : bool) (text : string) (st : state)
  : state :=
  if sentence_callback && Str.truthy (Str.strip text)
  then record_call (SentenceCall (Str.strip text)) st
  else st.

(** The sentence part of [process_new_markers_or_sentences]. *)
Definition process_sentence (sentence_callback : bool) (st : state) : bool * state :=
  match Str.sentence_pattern_match (buffer st) with
  | Some sentence =>
      (true, set_buffer (Str.drop (String.length sentence) (buffer st))
               (emit_sentence sentence_callback sentence st))
  | None => (false, st)
  end.

(** [marker_tuples] is a list; [None] and the empty list both skip the
    loop ([if marker_tuples:]) and are both modelled by [[]]. *)
Definition process_new_markers_or_sentences
    (sentence_callback : bool) (marker_tuples : list marker) (st : state)
  : outcome (bool * state) :=
  match scan_marker_tuples marker_tuples st with
  | Ok (Some st') => Ok (true, st')
  | Ok None => Ok (process_sentence sentence_callback st)
  | Raise e log => Raise e log
  | Timeout => Timeout
  end.

(** ** The driver *)

Inductive flow : Type := Continue | Break.

(** The body of the inner [while buffer:] loop. *)
Definition loop_body (sentence_callback : bool) (marker_tuples : list marker)
    (st : state) : outcome (flow * state) :=
  match active_markers st with
  | _ :: _ =>
      match process_active_markers st with
      | Ok (marker_index, st') =>
          if (0 <=? marker_index)%Z then
            match pop (Z.to_nat marker_index) (active_markers st') with
            | Some l => Ok (Continue, set_active_markers l st')
            | None => Raise IndexError (calls st')
            end
          else Ok (Break, st')
      | Raise e log => Raise e log
      | Timeout => Timeout
      end
  | [] =>
      match process_new_markers_or_sentences sentence_callback marker_tuples st with
      | Ok (true, st') => Ok (Continue, st')
      | Ok (false, st') => Ok (Break, st')
      | Raise e log => Raise e log
      | Timeout => Timeout
      end
  end.

(** The inner [while buffer:] loop, with at most [fuel] tests of its
    condition. *)
Fixpoint consume_loop (fuel : nat) (sentence_callback : bool)
    (marker_tuples : list marker) (st : state) : outcome state :=
  match fuel with
  | 0 => Timeout
  | S fuel' =>
      if Str.truthy (buffer st) then
        match loop_body sentence_callback marker_tuples st with
        | Ok (Continue, st') => consume_loop fuel' sentence_callback marker_tuples st'
        | Ok (Break, st') => Ok st'
        | Raise e log => Raise e log
        | Timeout => Timeout
        end
      else Ok st
  end.

(** [full_text += chunk; buffer += chunk]. *)
Definition append_chunk (chunk : string) (st : state) : state :=
  {| full_text := full_text st ++ chunk; buffer := buffer st ++ chunk;
     active_markers := active_markers st; calls := calls st |}.

(** The [for chunk in text_stream] loop. *)
Fixpoint stream_loop (fuel : nat) (sentence_callback : bool)
    (marker_tuples : list marker) (text_stream : list string) (st : state)
  : outcome state :=
  match text_stream with
  | [] => Ok st
  | chunk :: text_stream' =>
      match consume_loop fuel sentence_callback marker_tuples
              (append_chunk chunk st) with
      | Ok st' => stream_loop fuel sentence_callback marker_tuples text_stream' st'
      | Raise e log => Raise e log
      | Timeout => Timeout
      end
  end.

(** The body of the final [while buffer:] loop: [active_markers.pop(0)]
    when a marker is active, else the last sentence call and [break]. *)
Definition flush_body (sentence_callback : bool) (st : state) : flow * state :=
  match active_markers st with
  | _ :: l => (Continue, set_active_markers l st)
  | [] => (Break, emit_sentence sentence_callback (buffer st) st)
  end.

(** The final [while buffer:] loop, with at most [fuel] tests of its
    condition. *)
Fixpoint flush_loop (fuel : nat) (sentence_callback : bool) (st : state)
  : outcome state :=
  match fuel with
  | 0 => Timeout
  | S fuel' =>
      if Str.truthy (buffer st) then
        match flush_body sentence_callback st with
        | (Continue, st') => flush_loop fuel' sentence_callback st'
        | (Break, st') => Ok st'
        end
      else Ok st
  end.

(** [process_text_stream] with an explicit bound on the passes of each
    inner loop; it yields the returned text and the calls made. *)
Definition process_text_stream_fuel (fuel : nat) (text_stream : list string)
    (sentence_callback : bool) (marker_tuples : list marker)
  : outcome (string * list call) :=
  match stream_loop fuel sentence_callback marker_tuples text_stream initial with
  | Ok st =>
      match flush_loop fuel sentence_callback st with
      | Ok st' => Ok (full_text st', calls st')
      | Raise e log => Raise e log
      | Timeout => Timeout
      end
  | Raise e log => Raise e log
  | Timeout => Timeout
  end.

(** A bound that no loop of the routine reaches: a pass of the inner loop
    that continues shortens the buffer, and the final loop makes at most
    two passes (see [process_text_stream_fuel_enough] below). *)
Definition enough_fuel (text_stream : list string) : nat :=
  S (String.length (String.concat "" text_stream)).

Definition process_text_stream (text_stream : list string)
    (sentence_callback : bool) (marker_tuples : list marker)
  : outcome (string * list call) :=
  process_text_stream_fuel (enough_fuel text_stream) text_stream
    sentence_callback marker_tuples.

(** The calls an outcome shows. *)
Definition calls_of {A : Type} (log : A -> list call) (o : outcome A) : list call :=
  match o with
  | Ok a => log a
  | Raise _ l => l
  | Timeout => []
  end.

(** ** Relations on the states of a run *)

Import Str.

Section Relations.

Variable sentence_callback : bool.
Variable marker_tuples : list marker.

(** The calls that [emit_sentence] adds to the log. *)
Definition sentence_calls (text : string) : list call :=
  if sentence_callback && truthy (strip text) then [SentenceCall (strip text)] else [].

(** *** One pass of the inner loop, as a step relation

    The five ways in which a pass of [while buffer:] ends without an
    exception: an active marker is closed, no active marker can be closed,
    a marker is opened, a sentence is extracted, nothing matches. *)
Inductive body_step : state -> flow -> state -> Prop :=
| step_close (st : state) (k : nat) (m : marker) (l : list marker)
    (marked_text rest : string) :
    nth_error (active_markers st) k = Some m ->
    pop k (active_markers st) = Some l ->
    marker_end m <> "" ->
    buffer st = marked_text ++ marker_end m ++ rest ->
    truthy (strip marked_text) = true ->
    body_step st Continue
      (set_active_markers l
         (set_buffer rest (invoke_marker (marker_callback m) marked_text st)))
| step_blocked (st : state) :
    active_markers st <> [] -> body_step st Break st
| step_open (st : state) (m : marker) (before rest : string) :
    active_markers st = [] ->
    In m marker_tuples -> marker_start m <> "" ->
    buffer st = before ++ marker_start m ++ rest ->
    body_step st Continue (set_active_markers [m] (set_buffer rest st))
| step_sentence (st : state) (sentence : string) :
    active_markers st = [] ->
    sentence_pattern_match (buffer st) = Some sentence ->
    body_step st Continue
      (set_buffer (drop (String.length sentence) (buffer st))
         (emit_sentence sentence_callback sentence st))
| step_wait (st : state) :
    active_markers st = [] -> body_step st Break st.

(** Zero or more passes of the inner loop, each from a state with a
    non-empty buffer. *)
Inductive passes : state -> state -> Prop :=
| passes_none (st : state) : passes st st
| passes_more (st : state) (f : flow) (st1 st2 : state) :
    truthy (buffer st) = true ->
    loop_body sentence_callback marker_tuples st = Ok (f, st1) ->
    passes st1 st2 -> passes st st2.

(** The states that the driver can be in at the head of one of its loops:
    the initial one, and those reached by appending a chunk, by a pass of
    the inner loop or by a pass of the final loop. *)
Inductive reachable : state -> Prop :=
| reach_initial : reachable initial
| reach_chunk (chunk : string) (st : state) :
    reachable st -> reachable (append_chunk chunk st)
| reach_body (st : state) (f : flow) (st' : state) :
    reachable st -> truthy (buffer st) = true ->
    loop_body sentence_callback marker_tuples st = Ok (f, st') -> reachable st'
| reach_flush (st : state) (f : flow) (st' : state) :
    reachable st -> truthy (buffer st) = true ->
    flush_body sentence_callback st = (f, st') -> reachable st'.

(** A call of the sentence callback is in order when its argument is not
    empty and is its own [strip]. *)
Definition sentence_ok (c : call) : Prop :=
  match c with
  | SentenceCall text => text <> "" /\ strip text = text
  | MarkerCall _ _ => True
  end.

Record invariant (st : state) : Prop := {
  at_most_one_active : List.length (active_markers st) <= 1;
  active_are_registered : Forall (fun m => In m marker_tuples) (active_markers st);
  calls_in_order : Forall sentence_ok (calls st)
}.

(** The start- and end-tokens are non-empty strings. *)
Definition markers_wf : Prop :=
  Forall (fun m => marker_start m <> "" /\ marker_end m <> "") marker_tuples.

End Relations.

Arguments markers_wf marker_tuples : assert.
Arguments reachable sentence_callback marker_tuples st : assert.

(** ** Vocabulary of the properties *)

(** A sentence call is well trimmed when its text is not empty, is its
    own [strip], and neither starts nor ends with whitespace. *)
Definition well_trimmed_call (c : call) : Prop :=
  match c with
  | SentenceCall text => text <> "" /\ strip text = text /\ trimmed text
  | MarkerCall _ _ => True
  end.

(** The argument of a call. *)
Definition call_text (c : call) : string :=
  match c with
  | SentenceCall text => text
  | MarkerCall _ text => text
  end.

(** The marker calls of a log. *)
Definition marker_calls (log : list call) : list call :=
  filter (fun c => match c with
                   | MarkerCall _ _ => true
                   | SentenceCall _ => false
                   end) log.

(** The text that a run returns, if it returns. *)
Definition returned (o : outcome (string * list call)) : option string :=
  match o with
  | Ok (text, _) => Some text
  | _ => None
  end.

(** The marker pair of the examples, with callback number 1. *)
Definition tag : marker := ("<tag>", "</tag>", Some 1).

Definition line_one_line_two : string := "line one" ++ String newline "line two".

(** The prefixes that the specification names: a run of characters up to
    and including a terminator that whitespace or the end of the buffer
    follows, or a run of characters up to and including a newline. *)
Definition claimed_prefix (buffer p : string) : Prop :=
  exists rest,
    buffer = p ++ rest
    /\ ((exists run t, p = run ++ String t "" /\ is_terminator t = true
                       /\ (rest = "" \/ exists w r, rest = String w r
                                                    /\ isspace w = true))
        \/ (exists run, p = run ++ String newline "")).

(** The extraction that the specification names: the longest of them. *)
Definition claimed_extraction (buffer p : string) : Prop :=
  claimed_prefix buffer p
  /\ forall q, claimed_prefix buffer q -> String.length q <= String.length p.

(** What the pattern extracts: the shortest sentence prefix; without one,
    the newline that starts the buffer; else nothing. *)
Inductive extracted (buffer : string) : option string -> Prop :=
| extracted_sentence (p : string) :
    sentence_prefix buffer p ->
    (forall q, sentence_prefix buffer q -> String.length p <= String.length q) ->
    extracted buffer (Some p)
| extracted_newline (rest : string) :
    (forall q, ~ sentence_prefix buffer q) ->
    buffer = String newline rest ->
    extracted buffer (Some (String newline ""))
| extracted_nothing :
    (forall q, ~ sentence_prefix buffer q) ->
    (forall rest, buffer <> String newline rest) ->
    extracted buffer None.

(** ** Vocabulary of the further properties *)

(** [t] occurs in [s] as a run of consecutive characters. *)
Definition occurs_in (t s : string) : Prop := exists a b, s = a ++ t ++ b.

(** A marker call is in order for [marker_tuples] when its text is not
    blank and its callback is the callback of a registered tuple whose
    end-token does not occur in the text. *)
Definition marker_call_ok (marker_tuples : list marker) (c : call) : Prop :=
  match c with
  | MarkerCall k text =>
      truthy (strip text) = true
      /\ exists m, In m marker_tuples /\ marker_callback m = Some k
                   /\ contains (marker_end m) text = false
  | SentenceCall _ => True
  end.

(** The sentence calls of a log. *)
Definition sentence_calls_of (log : list call) : list call :=
  filter (fun c => match c with
                   | SentenceCall _ => true
                   | MarkerCall _ _ => false
                   end) log.

(** The calls made while the chunks are consumed, before the end of the
    stream is known: the log when the [for] loop is left. *)
Definition streamed_calls (text_stream : list string) (sentence_callback : bool)
    (marker_tuples : list marker) : list call :=
  calls_of calls
    (stream_loop (enough_fuel text_stream) sentence_callback marker_tuples
       text_stream initial).

(** ** The completion methods and the set-up of the client

    [CompletionManager.get_completion], [get_completion_stream],
    [_setup_client] and [__init__] (lines 5-131).  The client classes, the
    configuration module and [maintain_token_limit] are not part of the
    file: the client's [stream_completion] and [maintain_token_limit] are
    parameters, and the configuration is a record of the attributes that
    the file reads. *)

(** What a collaborator raises: an instance of [Exception], with the text
    that [str] gives for it, or an exception that is not one (such as
    [KeyboardInterrupt]), which [except Exception] does not catch. *)
Inductive raised : Type :=
| AnException (text : string)
| NotAnException (text : string).

(** The iterable that [stream_completion] returns: the chunks it yields
    and, when iterating it ends with an exception instead of exhaustion,
    that exception. *)
Record chunk_stream : Type := {
  chunks : list string;
  failure : option raised
}.

(** A call of [stream_completion]: it returns an iterable or raises. *)
Inductive answer : Type :=
| Stream (s : chunk_stream)
| CallRaises (e : raised).

(** What a method writes: a line given to [print], or the traceback of an
    exception ([traceback.print_exc()]). *)
Inductive output : Type :=
| Print (line : string)
| PrintExc (e : raised).

(** What a method does: it returns a value or lets an exception through,
    after having written some output. *)
Inductive result (A : Type) : Type :=
| Return (value : A) (out : list output)
| Propagate (e : raised) (out : list output).
Arguments Return {A} value out.
Arguments Propagate {A} e out.

(** The [except Exception as e] clause that both methods end with. *)
Definition on_exception {A : Type} (verbose : bool) (e : raised)
  : result (option A) :=
  match e with
  | AnException text =>
      Return None
        [if verbose then PrintExc e
         else Print ("An error occurred while getting completion: " ++ text)]
  | NotAnException _ => Propagate e []
  end.

Section Completion.

Variables Messages Model Kwargs Limit : Type.

(** [self.client.stream_completion]. *)
Variable stream_completion : Messages -> Model -> Kwargs -> answer.

(** [utils.maintain_token_limit] and [config.MAX_TOKENS]. *)
Variable maintain_token_limit : Messages -> Limit -> Messages + raised.
Variable MAX_TOKENS : Limit.

Definition get_completion (verbose : bool) (messages : Messages) (model : Model)
    (kwargs : Kwargs) : result (option string) :=
  match stream_completion messages model kwargs with
  | CallRaises e => on_exception verbose e
  | Stream completion_stream =>
      let full_response :=
        fold_left (fun full_response chunk => full_response ++ chunk)
          (chunks completion_stream) "" in
      match failure completion_stream with
      | None => Return (Some full_response) []
      | Some e => on_exception verbose e
      end
  end.

Definition get_completion_stream (verbose : bool) (messages : Messages)
    (model : Model) (kwargs : Kwargs) : result (option chunk_stream) :=
  match maintain_token_limit messages MAX_TOKENS with
  | inr e => on_exception verbose e
  | inl messages' =>
      match stream_completion messages' model kwargs with
      | CallRaises e => on_exception verbose e
      | Stream completion_stream => Return (Some completion_stream) []
      end
  end.

End Completion.

(** How [process_text_stream] ends on an iterable: as on the list of its
    chunks, or, when the iterable raises after its last chunk, with that
    exception leaving the [for] loop: the calls made so far stand and the
    final loop is not reached. *)
Inductive consumed : Type :=
| Finished (o : outcome (string * list call))
| Interrupted (e : raised) (log : list call).

Definition process_text_stream_on (text_stream : chunk_stream)
    (sentence_callback : bool) (marker_tuples : list marker) : consumed :=
  match stream_loop (enough_fuel (chunks text_stream)) sentence_callback
          marker_tuples (chunks text_stream) initial with
  | Ok st =>
      match failure text_stream with
      | None =>
          Finished (process_text_stream (chunks text_stream)
                      sentence_callback marker_tuples)
      | Some e => Interrupted e (calls st)
      end
  | Raise e log => Finished (Raise e log)
  | Timeout => Finished Timeout
  end.

(** The client classes that [_setup_client] instantiates. *)
Inductive client_class : Type :=
| OpenAIClient | TogetherAIClient | AnthropicClient | PerplexityClient
| OpenRouterClient | GroqClient | TabbyApiClient | GeminiClient
| PortkeyClient | PortkeyPromptClient | LM_StudioClient | OllamaClient.

(** A client, as the arguments it was made with; [base_url] is [None]
    when the argument was not given. *)
Record client : Type := {
  class_of : client_class;
  base_url : option string;
  client_verbose : bool
}.

(** The attributes of [config] that the file reads; [None] for a base URL
    that [hasattr] does not find. *)
Record config : Type := {
  COMPLETIONS_API : string;
  LM_STUDIO_API_BASE_URL : option string;
  OLLAMA_API_BASE_URL : option string
}.

(** [_setup_client]: the client and the lines printed, or the message of
    the [ValueError] raised. *)
Definition _setup_client (verbose : bool) (cfg : config)
  : client * list string + string :=
  let plain c := inl ({| class_of := c; base_url := None;
                         client_verbose := verbose |}, []) in
  let api := COMPLETIONS_API cfg in
  if api =? "openai" then plain OpenAIClient
  else if api =? "together" then plain TogetherAIClient
  else if api =? "anthropic" then plain AnthropicClient
  else if api =? "perplexity" then plain PerplexityClient
  else if api =? "openrouter" then plain OpenRouterClient
  else if api =? "groq" then plain GroqClient
  else if api =? "tabbyapi" then plain TabbyApiClient
  else if api =? "google" then plain GeminiClient
  else if api =? "portkey" then plain PortkeyClient
  else if api =? "portkey_prompt" then plain PortkeyPromptClient
  else if api =? "lm_studio" then
    match LM_STUDIO_API_BASE_URL cfg with
    | Some url => inl ({| class_of := LM_StudioClient; base_url := Some url;
                          client_verbose := verbose |}, [])
    | None => inl ({| class_of := LM_StudioClient; base_url := None;
                      client_verbose := verbose |},
                   ["No LM_STUDIO_API_BASE_URL found in config.py, using default"])
    end
  else if api =? "ollama" then
    match OLLAMA_API_BASE_URL cfg with
    | Some url => inl ({| class_of := OllamaClient; base_url := Some url;
                          client_verbose := verbose |}, [])
    | None => inl ({| class_of := OllamaClient; base_url := None;
                      client_verbose := verbose |},
                   ["No OLLAMA_API_BASE_URL found in config.py, using default"])
    end
  else inr "Unsupported completion API service configured".

(** The names that [_setup_client] compares [config.COMPLETIONS_API] with. *)
Definition supported_apis : list string :=
  ["openai"; "together"; "anthropic"; "perplexity"; "openrouter"; "groq";
   "tabbyapi"; "google"; "portkey"; "portkey_prompt"; "lm_studio"; "ollama"].

(** What the [try] statement of both methods allows: an exception gets
    through only if it is not an [Exception], and then nothing was
    printed; [None] is returned after exactly one diagnostic, of the kind
    that [verbose] selects; a value is returned without output. *)
Definition handled {A : Type} (verbose : bool) (r : result (option A)) : Prop :=
  match r with
  | Propagate (NotAnException _) [] => True
  | Propagate _ _ => False
  | Return None [Print _] => verbose = false
  | Return None [PrintExc (AnException _)] => verbose = true
  | Return None _ => False
  | Return (Some _) [] => True
  | Return (Some _) _ => False
  end.

(** The name that selects a client class. *)
Definition api_name (c : client_class) : string :=
  match c with
  | OpenAIClient => "openai"
  | TogetherAIClient => "together"
  | AnthropicClient => "anthropic"
  | PerplexityClient => "perplexity"
  | OpenRouterClient => "openrouter"
  | GroqClient => "groq"
  | TabbyApiClient => "tabbyapi"
  | GeminiClient => "google"
  | PortkeyClient => "portkey"
  | PortkeyPromptClient => "portkey_prompt"
  | LM_StudioClient => "lm_studio"
  | OllamaClient => "ollama"
  end.

(** The base URL that the configuration has for a client class. *)
Definition configured_url (cfg : config) (c : client_class) : option string :=
  match c with
  | LM_StudioClient => LM_STUDIO_API_BASE_URL cfg
  | OllamaClient => OLLAMA_API_BASE_URL cfg
  | _ => None
  end.

(** The line printed for a client class that takes a base URL when the
    configuration has none. *)
Definition missing_url_lines (cfg : config) (c : client_class) : list string :=
  match c, configured_url cfg c with
  | LM_StudioClient, None =>
      ["No LM_STUDIO_API_BASE_URL found in config.py, using default"]
  | OllamaClient, None =>
      ["No OLLAMA_API_BASE_URL found in config.py, using default"]
  | _, _ => []
  end.

(** Two states that agree on all but the sentence calls of their logs. *)
Definition same_segmentation (st1 st2 : state) : Prop :=
  full_text st1 = full_text st2
  /\ buffer st1 = buffer st2
  /\ active_markers st1 = active_markers st2
  /\ marker_calls (calls st1) = marker_calls (calls st2).

(** Two outcomes of the same kind, with related values, or with the same
    exception after the same marker calls. *)
Definition same_outcome {A : Type} (R : A -> A -> Prop) (o1 o2 : outcome A) : Prop :=
  match o1, o2 with
  | Ok a1, Ok a2 => R a1 a2
  | Raise e1 log1, Raise e2 log2 => e1 = e2 /\ marker_calls log1 = marker_calls log2
  | Timeout, Timeout => True
  | _, _ => False
  end.

(** The strings of a list occur in a text one after the other, without
    overlap. *)
Inductive occur_in_order : list string -> string -> Prop :=
| in_order_nil (s : string) : occur_in_order [] s
| in_order_cons (t : string) (ts : list string) (a s' : string) :
    occur_in_order ts s' -> occur_in_order (t :: ts) (a ++ t ++ s').

(** Whether one of ['.'], ['!'] and ['?'] is in a string. *)
Fixpoint has_terminator (s : string) : bool :=
  match s with
  | EmptyString => false
  | String c s' => is_terminator c || has_terminator s'
  end.

(** The texts of the calls made occur in order in what has left the
    buffer. *)
Definition ordered (st : state) : Prop :=
  exists consumed,
    full_text st = consumed ++ buffer st
    /\ occur_in_order (map call_text (calls st)) consumed.

(** * Facts about the string primitives *)

Module StrFacts.
Import Str.

Lemma length_append (a b : string) :
  String.length (a ++ b) = String.length a + String.length b.
Proof. induction a as [|c a IH]; simpl; [reflexivity | now rewrite IH]. Qed.

Lemma append_nil_r (a : string) : a ++ "" = a.
Proof. induction a as [|c a IH]; simpl; [reflexivity | now rewrite IH]. Qed.

Lemma append_assoc (a b c : string) : (a ++ b) ++ c = a ++ (b ++ c).
Proof. induction a as [|x a IH]; simpl; [reflexivity | now rewrite IH]. Qed.

Lemma truthy_length (s : string) : truthy s = true <-> 0 < String.length s.
Proof. destruct s; simpl; split; intros; try lia; congruence. Qed.

Lemma truthy_false (s : string) : truthy s = false <-> s = "".
Proof. destruct s; simpl; split; congruence. Qed.

Lemma truthy_true (s : string) : truthy s = true <-> s <> "".
Proof. destruct s; simpl; split; congruence. Qed.

Lemma drop_length (n : nat) (s : string) :
  String.length (drop n s) = String.length s - n.
Proof.
  revert s; induction n as [|n IH]; intros [|c s]; simpl; auto.
Qed.

Lemma drop_append (a b : string) : drop (String.length a) (a ++ b) = b.
Proof. induction a as [|c a IH]; simpl; auto. Qed.

(** A prefix splits the string in two. *)
Lemma prefix_split (p s : string) :
  prefix p s = true -> s = p ++ drop (String.length p) s.
Proof.
  revert s; induction p as [|c p IH]; intros s H.
  - destruct s; reflexivity.
  - destruct s as [|d s]; simpl in H; [discriminate|].
    destruct (ascii_dec c d) as [->|]; [|discriminate].
    simpl. f_equal. now apply IH.
Qed.

Lemma prefix_append (p s : string) : prefix p (p ++ s) = true.
Proof.
  induction p as [|c p IH]; simpl.
  - destruct s; reflexivity.
  - destruct (ascii_dec c c); [assumption | congruence].
Qed.

Lemma prefix_empty (s : string) : prefix "" s = true.
Proof. destruct s; reflexivity. Qed.

(** [split_first] cuts at an occurrence of the separator... *)
Lemma split_first_spec (sep s before rest : string) :
  split_first sep s = Some (before, rest) -> s = before ++ sep ++ rest.
Proof.
  revert before rest; induction s as [|c s IH]; intros before rest H.
  - cbn [split_first] in H. destruct (prefix sep "") eqn:P; [|discriminate].
    injection H as <- <-. now apply prefix_split in P.
  - cbn [split_first] in H. destruct (prefix sep (String c s)) eqn:P.
    + injection H as <- <-. now apply prefix_split in P.
    + destruct (split_first sep s) as [[b r]|] eqn:E; [|discriminate].
      injection H as <- <-. simpl. f_equal. now apply IH.
Qed.

(** ... the leftmost one: the separator starts nowhere before the cut. *)
Lemma split_first_leftmost (sep s before rest : string) :
  split_first sep s = Some (before, rest) ->
  forall a b : string, before = a ++ b -> b <> "" ->
    prefix sep (b ++ sep ++ rest) = false.
Proof.
  revert before rest; induction s as [|c s IH]; intros before rest H a b Hb Hne.
  - cbn [split_first] in H. destruct (prefix sep ""); [|discriminate].
    injection H as <- <-. destruct a, b; simpl in Hb; congruence.
  - cbn [split_first] in H. destruct (prefix sep (String c s)) eqn:P.
    + injection H as <- <-. destruct a, b; simpl in Hb; congruence.
    + destruct (split_first sep s) as [[b0 r]|] eqn:E; [|discriminate].
      injection H as <- <-.
      pose proof (split_first_spec _ _ _ _ E) as Hs.
      destruct a as [|x a]; simpl in Hb.
      * subst b. simpl. now rewrite <- Hs.
      * injection Hb as -> ->. now apply (IH _ _ eq_refl a b).
Qed.

Lemma contains_split_first (sub s : string) :
  contains sub s = true <-> exists p, split_first sub s = Some p.
Proof.
  induction s as [|c s IH].
  - cbn [contains split_first].
    destruct (prefix sub ""); simpl; split; eauto; try discriminate.
    intros [p H]; discriminate.
  - cbn [contains split_first]. destruct (prefix sub (String c s)); simpl.
    + split; eauto.
    + rewrite IH. split; intros [p H].
      * rewrite H. destruct p. eauto.
      * destruct (split_first sub s) as [[b r]|]; [eauto | discriminate].
Qed.

Lemma contains_empty (s : string) : contains "" s = true.
Proof. destruct s; reflexivity. Qed.

Lemma contains_append (a sub b : string) : contains sub (a ++ sub ++ b) = true.
Proof.
  induction a as [|c a IH].
  - cbn [append]. pose proof (prefix_append sub b) as P.
    destruct (sub ++ b); cbn [contains]; rewrite P; reflexivity.
  - cbn [append contains]. rewrite IH. apply orb_true_r.
Qed.

(** [partition] on a separator that occurs: the three parts, and how much
    shorter the third one is. *)
Lemma partition_found (sep s : string) :
  sep <> "" -> contains sep s = true ->
  exists before rest,
    partition sep s = Some (before, sep, rest)
    /\ split_first sep s = Some (before, rest)
    /\ s = before ++ sep ++ rest.
Proof.
  intros Hne Hc. apply contains_split_first in Hc as [[b r] H].
  exists b, r. unfold partition. rewrite H.
  destruct sep; [congruence|]. repeat split. now apply split_first_spec.
Qed.

Lemma partition_some (sep s a b c : string) :
  partition sep s = Some (a, b, c) -> contains sep s = true ->
  sep <> "" /\ b = sep /\ s = a ++ sep ++ c.
Proof.
  intros H Hc. destruct sep as [|x sep]; [discriminate|].
  destruct (partition_found (String x sep) s) as (b' & r' & H1 & _ & H2);
    [congruence | assumption |].
  rewrite H1 in H. injection H as <- <- <-. repeat split; [congruence | assumption].
Qed.

Lemma partition_none (sep s : string) : partition sep s = None <-> sep = "".
Proof.
  unfold partition. destruct sep; [tauto|].
  destruct (split_first _ _) as [[? ?]|]; split; congruence.
Qed.

(** *** Stripping *)

Lemma lstrip_fixed (c : ascii) (s : string) :
  isspace c = false -> lstrip (String c s) = String c s.
Proof. intros H; simpl; now rewrite H. Qed.

Lemma lstrip_head (s : string) (c : ascii) (r : string) :
  lstrip s = String c r -> isspace c = false.
Proof.
  induction s as [|d s IH]; simpl; [discriminate|].
  destruct (isspace d) eqn:E; [assumption|]. intros H; injection H as <- <-. exact E.
Qed.

Lemma rstrip_head (c : ascii) (s : string) :
  isspace c = false -> exists r, rstrip (String c s) = String c r.
Proof.
  intros H. cbn [rstrip]. destruct (rstrip s); [rewrite H|]; eauto.
Qed.

Lemma rstrip_idem (s : string) : rstrip (rstrip s) = rstrip s.
Proof.
  induction s as [|c s IH]; [reflexivity|].
  cbn [rstrip]. destruct (rstrip s) as [|d r] eqn:E.
  - destruct (isspace c) eqn:Hc; [reflexivity|]. simpl. now rewrite Hc.
  - cbn [rstrip]. cbn [rstrip] in IH. now rewrite IH.
Qed.

(** Stripping twice is stripping once: what [strip] returns is trimmed. *)
Lemma strip_idem (s : string) : strip (strip s) = strip s.
Proof.
  unfold strip. destruct (lstrip s) as [|c r] eqn:E; [reflexivity|].
  apply lstrip_head in E.
  destruct (rstrip_head c r E) as [r' H]. rewrite H.
  rewrite lstrip_fixed by assumption. rewrite <- H. apply rstrip_idem.
Qed.

Lemma rstrip_last (s : string) :
  rstrip s <> "" ->
  exists r d, rstrip s = r ++ String d "" /\ isspace d = false.
Proof.
  induction s as [|c s IH]; cbn [rstrip]; [congruence|].
  destruct (rstrip s) as [|x r'] eqn:E.
  - destruct (isspace c) eqn:Hc; [congruence|]. intros _. now exists "", c.
  - intros _. destruct IH as (r0 & d & H & Hd); [discriminate|].
    exists (String c r0), d. simpl. now rewrite H.
Qed.

Lemma append_last_inj (r r0 : string) (d d0 : ascii) :
  r ++ String d "" = r0 ++ String d0 "" -> d = d0.
Proof.
  revert r0; induction r as [|c r IH]; intros [|c0 r0] H; simpl in H.
  - congruence.
  - destruct r0; discriminate.
  - destruct r; discriminate.
  - injection H as _ H. now apply IH in H.
Qed.

(** A string that [strip] leaves as it is, is trimmed. *)
Lemma strip_trimmed (t : string) : strip t = t -> trimmed t.
Proof.
  unfold strip. intros H. split.
  - intros c r ->. destruct (lstrip (String c r)) as [|c' r'] eqn:E;
      [discriminate|].
    apply lstrip_head in E. destruct (rstrip_head c' r' E) as [r'' R].
    rewrite R in H. congruence.
  - intros r d ->.
    destruct (rstrip_last (lstrip (r ++ String d ""))) as (r0 & d0 & R & Hd).
    + rewrite H. destruct r; discriminate.
    + rewrite H in R. apply append_last_inj in R. congruence.
Qed.

(** *** The sentence pattern *)

Lemma sentence_prefix_cons (c : ascii) (s q : string) :
  sentence_prefix s q -> sentence_prefix (String c s) (String c q).
Proof.
  intros [run t Ht | run t w rest Ht Hw].
  - exact (sentence_at_end (String c run) t Ht).
  - exact (sentence_before_space (String c run) t w rest Ht Hw).
Qed.

Lemma sentence_prefix_inv (c : ascii) (s q : string) :
  sentence_prefix (String c s) q ->
  (is_terminator c = true /\ s = "" /\ q = String c "")
  \/ (is_terminator c = true
      /\ exists w rest, s = String w rest /\ isspace w = true
                        /\ q = String c (String w ""))
  \/ (exists q', q = String c q' /\ sentence_prefix s q').
Proof.
  intros H. inversion H as [run t Ht E1 E2 | run t w rest Ht Hw E1 E2].
  - destruct run as [|x run]; simpl in *.
    + injection E1 as -> ->. auto.
    + injection E1 as -> <-. right; right. eexists; split; [reflexivity|].
      now constructor.
  - destruct run as [|x run]; simpl in *.
    + injection E1 as -> <-. right; left. eauto 6.
    + injection E1 as -> <-. right; right. eexists; split; [reflexivity|].
      now constructor.
Qed.

Lemma sentence_prefix_empty (q : string) : ~ sentence_prefix "" q.
Proof.
  intros H. inversion H as [run t Ht E1 E2 | run t w rest Ht Hw E1 E2];
    destruct run; discriminate.
Qed.

Lemma sentence_prefix_split (s q : string) :
  sentence_prefix s q -> q <> "" /\ exists rest, s = q ++ rest.
Proof.
  intros [run t Ht | run t w rest Ht Hw]; split.
  - destruct run; discriminate.
  - exists "". now rewrite append_nil_r.
  - destruct run; discriminate.
  - exists rest. now rewrite append_assoc.
Qed.

Lemma substring_0_0 (s : string) : substring 0 0 s = "".
Proof. destruct s; reflexivity. Qed.

Lemma substring_0_length (n : nat) (s : string) :
  n <= String.length s -> String.length (substring 0 n s) = n.
Proof.
  revert s; induction n as [|n IH]; intros [|c s] H; simpl in *; auto; try lia.
  f_equal. apply IH. lia.
Qed.

(** The first alternative finds the shortest sentence prefix... *)
Lemma lazy_terminator_some (s : string) (n : nat) :
  lazy_terminator s = Some n ->
  sentence_prefix s (substring 0 n s)
  /\ String.length (substring 0 n s) = n
  /\ forall q, sentence_prefix s q -> n <= String.length q.
Proof.
  revert n; induction s as [|c s IH]; intros n H; [discriminate|].
  assert (Hext : option_map S (lazy_terminator s) = Some n ->
                 (is_terminator c = false \/
                  exists d r, s = String d r /\ isspace d = false) ->
                 sentence_prefix (String c s) (substring 0 n (String c s))
                 /\ String.length (substring 0 n (String c s)) = n
                 /\ forall q, sentence_prefix (String c s) q -> n <= String.length q).
  { intros E Hc. destruct (lazy_terminator s) as [k|]; [|discriminate].
    injection E as <-. destruct (IH k eq_refl) as (P & L & M).
    simpl. split; [now apply sentence_prefix_cons|]. split; [now rewrite L|].
    intros q Hq.
    apply sentence_prefix_inv in Hq
      as [(T & -> & _) | [(T & w & r & -> & W & _) | (q' & -> & Hq')]].
    - now apply sentence_prefix_empty in P.
    - destruct Hc as [Hc | (d & r' & E & Hd)]; [congruence|].
      injection E as -> ->. congruence.
    - simpl. apply M in Hq'. lia. }
  cbn [lazy_terminator] in H. cbv zeta in H.
  destruct (is_terminator c) eqn:T; [|apply Hext; auto].
  destruct s as [|d r].
  - injection H as <-. simpl. split; [exact (sentence_at_end "" c T)|].
    split; [reflexivity|]. intros q Hq.
    apply sentence_prefix_split in Hq as [Hq _]. destruct q; simpl; [congruence | lia].
  - destruct (isspace d) eqn:W; [|apply Hext; eauto].
    injection H as <-. simpl. rewrite substring_0_0.
    split; [exact (sentence_before_space "" c d r T W)|].
    split; [reflexivity|]. intros q Hq.
    apply sentence_prefix_inv in Hq
      as [(_ & E & _) | [(_ & w & r' & _ & _ & ->) | (q' & -> & Hq')]].
    + discriminate.
    + simpl; lia.
    + apply sentence_prefix_split in Hq' as [Hq' _].
      destruct q'; simpl; [congruence | lia].
Qed.

(** ... and fails only when the buffer has none. *)
Lemma lazy_terminator_none (s : string) :
  lazy_terminator s = None -> forall q, ~ sentence_prefix s q.
Proof.
  induction s as [|c s IH]; intros H q Hq; [now apply sentence_prefix_empty in Hq|].
  cbn [lazy_terminator] in H. cbv zeta in H.
  apply sentence_prefix_inv in Hq
    as [(T & -> & _) | [(T & w & r & -> & W & _) | (q' & -> & Hq')]].
  - rewrite T in H. discriminate.
  - rewrite T, W in H. discriminate.
  - assert (E : lazy_terminator s = None).
    { destruct (lazy_terminator s); [|reflexivity].
      destruct (is_terminator c); [destruct s as [|d r]; [discriminate|];
        destruct (isspace d)|]; discriminate. }
    exact (IH E q' Hq').
Qed.

(** Whatever the pattern matches is a non-empty prefix of the buffer. *)
Lemma sentence_pattern_match_split (b p : string) :
  sentence_pattern_match b = Some p ->
  p <> "" /\ b = p ++ drop (String.length p) b.
Proof.
  unfold sentence_pattern_match. destruct (lazy_terminator b) as [n|] eqn:E.
  - intros H; injection H as <-.
    apply lazy_terminator_some in E as (P & _ & _).
    remember (substring 0 n b) as p eqn:Hp. clear Hp.
    apply sentence_prefix_split in P as (Hne & rest & Hr). split; [assumption|].
    assert (D : drop (String.length p) b = rest).
    { rewrite Hr. apply drop_append. }
    rewrite D. exact Hr.
  - destruct b as [|c b]; [discriminate|].
    destruct (Ascii.eqb_spec c newline) as [->|]; [|discriminate].
    intros H; injection H as <-. split; [discriminate | reflexivity].
Qed.

End StrFacts.

(** * Facts about the engine *)

Import Str StrFacts.

Lemma concat_cons (chunk : string) (l : list string) :
  String.concat "" (chunk :: l) = chunk ++ String.concat "" l.
Proof. destruct l; simpl; [now rewrite append_nil_r | reflexivity]. Qed.

Lemma pop_nth (l : list marker) (k : nat) (m : marker) :
  nth_error l k = Some m ->
  exists l', pop k l = Some l' /\ S (List.length l') = List.length l
             /\ forall x, In x l' -> In x l.
Proof.
  revert k; induction l as [|a l IH]; intros [|k] H; simpl in H; try discriminate.
  - exists l. simpl; auto.
  - destruct (IH k H) as (l' & P & L & I). exists (a :: l'). simpl.
    rewrite P. simpl. repeat split; [lia|]. intros x [->|Hx]; auto.
Qed.

(** What [process_active_markers] returns: [-1] and the state as it was,
    or the index of an active marker whose end-token splits the buffer
    around a text that is not blank. *)
Lemma scan_active_markers_ok (ms : list marker) :
  forall (i : Z) (st : state) (j : Z) (st' : state),
  scan_active_markers i ms st = Ok (j, st') ->
  (j = (-1)%Z /\ st' = st)
  \/ exists k m marked_text rest,
       nth_error ms k = Some m /\ j = (i + Z.of_nat k)%Z
       /\ marker_end m <> ""
       /\ buffer st = marked_text ++ marker_end m ++ rest
       /\ truthy (strip marked_text) = true
       /\ st' = set_buffer rest (invoke_marker (marker_callback m) marked_text st).
Proof.
  induction ms as [|[[start end_] callback] ms IH]; intros i st j st' H.
  - injection H as <- <-. auto.
  - cbn [scan_active_markers] in H.
    assert (Hnext : scan_active_markers (i + 1) ms st = Ok (j, st') ->
                    (j = (-1)%Z /\ st' = st)
                    \/ exists k m marked_text rest,
                         nth_error ((start, end_, callback) :: ms) k = Some m
                         /\ j = (i + Z.of_nat k)%Z /\ marker_end m <> ""
                         /\ buffer st = marked_text ++ marker_end m ++ rest
                         /\ truthy (strip marked_text) = true
                         /\ st' = set_buffer rest
                                    (invoke_marker (marker_callback m) marked_text st)).
    { intros E. apply IH in E as [?|(k & m & t & r & N & J & R)]; [auto|].
      right. exists (S k), m, t, r. split; [exact N|]. split; [lia | exact R]. }
    destruct (contains end_ (buffer st)) eqn:C; [|auto].
    destruct (partition end_ (buffer st)) as [[[marked_text sep] rest]|] eqn:P;
      [|discriminate].
    destruct (truthy (strip marked_text)) eqn:T; [|auto].
    injection H as <- <-. right.
    destruct (partition_some _ _ _ _ _ P C) as (Hne & _ & Hb).
    exists 0, (start, end_, callback), marked_text, rest.
    simpl. repeat split; auto. lia.
Qed.

Lemma scan_active_markers_raise (ms : list marker) :
  forall (i : Z) (st : state) (e : exn) (log : list call),
  scan_active_markers i ms st = Raise e log ->
  e = ValueError /\ log = calls st /\ exists m, In m ms /\ marker_end m = "".
Proof.
  induction ms as [|[[start end_] callback] ms IH]; intros i st e log H;
    [discriminate|].
  cbn [scan_active_markers] in H.
  assert (Hnext : scan_active_markers (i + 1) ms st = Raise e log ->
                  e = ValueError /\ log = calls st
                  /\ exists m, In m ((start, end_, callback) :: ms)
                               /\ marker_end m = "").
  { intros E. apply IH in E as (? & ? & m & ? & ?).
    repeat split; auto. exists m; simpl; auto. }
  destruct (contains end_ (buffer st)); [|auto].
  destruct (partition end_ (buffer st)) as [[[marked_text sep] rest]|] eqn:P.
  - destruct (truthy (strip marked_text)); [discriminate | auto].
  - injection H as <- <-. apply partition_none in P.
    repeat split; auto. exists (start, end_, callback); simpl; auto.
Qed.

Lemma scan_active_markers_no_timeout (ms : list marker) (i : Z) (st : state) :
  scan_active_markers i ms st <> Timeout.
Proof.
  revert i; induction ms as [|[[start end_] callback] ms IH]; intros i;
    [discriminate|].
  cbn [scan_active_markers].
  destruct (contains end_ (buffer st)); [|apply IH].
  destruct (partition end_ (buffer st)) as [[[marked_text sep] rest]|];
    [|discriminate].
  destruct (truthy (strip marked_text)); [discriminate | apply IH].
Qed.

(** What the loop over [marker_tuples] does: it stops at the first tuple,
    in list order, whose start-token is in the buffer. *)
Lemma scan_marker_tuples_none (ms : list marker) (st : state) :
  scan_marker_tuples ms st = Ok None <->
  Forall (fun m => contains (marker_start m) (buffer st) = false) ms.
Proof.
  induction ms as [|[[start end_] callback] ms IH]; cbn [scan_marker_tuples].
  - split; auto.
  - destruct (contains start (buffer st)) eqn:C.
    + split.
      * destruct (partition start (buffer st)) as [[[? ?] ?]|]; discriminate.
      * intros H. inversion H as [|? ? H1 H2]. unfold marker_start in H1; simpl in H1.
        congruence.
    + rewrite IH. split; [intros H; constructor; assumption|].
      intros H; now inversion H.
Qed.

Lemma scan_marker_tuples_first (skipped : list marker) (m : marker)
    (later : list marker) (st : state) :
  Forall (fun x => contains (marker_start x) (buffer st) = false) skipped ->
  contains (marker_start m) (buffer st) = true ->
  scan_marker_tuples (skipped ++ m :: later) st =
    match partition (marker_start m) (buffer st) with
    | Some (_, _, rest) =>
        Ok (Some (set_active_markers (active_markers st ++ [m]) (set_buffer rest st)))
    | None => Raise ValueError (calls st)
    end.
Proof.
  intros Hs Hm. induction skipped as [|[[s e] c] skipped IH]; simpl.
  - destruct m as [[start end_] callback]. unfold marker_start in *; simpl in *.
    rewrite Hm. destruct (partition start (buffer st)) as [[[? ?] ?]|]; reflexivity.
  - inversion Hs as [|? ? H1 H2]. unfold marker_start in H1; simpl in H1.
    rewrite H1. now apply IH.
Qed.

(** The list splits at the first element that satisfies a test. *)
Lemma first_match_split {A : Type} (f : A -> bool) (l : list A) :
  existsb f l = true ->
  exists skipped m later,
    l = (skipped ++ m :: later)%list
    /\ Forall (fun x => f x = false) skipped /\ f m = true.
Proof.
  induction l as [|a l IH]; simpl; [discriminate|].
  destruct (f a) eqn:E.
  - intros _. exists [], a, l. auto.
  - simpl. intros H. destruct (IH H) as (s & m & t & -> & Hs & Hm).
    exists (a :: s), m, t. auto.
Qed.

Lemma scan_marker_tuples_some (ms : list marker) (st st' : state) :
  scan_marker_tuples ms st = Ok (Some st') ->
  exists m before rest,
    In m ms /\ marker_start m <> ""
    /\ buffer st = before ++ marker_start m ++ rest
    /\ st' = set_active_markers (active_markers st ++ [m]) (set_buffer rest st).
Proof.
  induction ms as [|[[start end_] callback] ms IH]; cbn [scan_marker_tuples];
    [discriminate|].
  destruct (contains start (buffer st)) eqn:C.
  - destruct (partition start (buffer st)) as [[[before sep] rest]|] eqn:P;
      [|discriminate].
    intros H; injection H as <-.
    destruct (partition_some _ _ _ _ _ P C) as (Hne & _ & Hb).
    exists (start, end_, callback), before, rest. simpl; auto.
  - intros H. destruct (IH H) as (m & b & r & I & R).
    exists m, b, r. simpl; auto.
Qed.

Lemma scan_marker_tuples_raise (ms : list marker) (st : state)
    (e : exn) (log : list call) :
  scan_marker_tuples ms st = Raise e log ->
  e = ValueError /\ log = calls st /\ exists m, In m ms /\ marker_start m = "".
Proof.
  induction ms as [|[[start end_] callback] ms IH]; cbn [scan_marker_tuples];
    [discriminate|].
  destruct (contains start (buffer st)).
  - destruct (partition start (buffer st)) as [[[before sep] rest]|] eqn:P;
      [discriminate|].
    intros H; injection H as <- <-. apply partition_none in P.
    repeat split; auto. exists (start, end_, callback); simpl; auto.
  - intros H. destruct (IH H) as (? & ? & m & ? & ?).
    repeat split; auto. exists m; simpl; auto.
Qed.

Lemma scan_marker_tuples_no_timeout (ms : list marker) (st : state) :
  scan_marker_tuples ms st <> Timeout.
Proof.
  induction ms as [|[[start end_] callback] ms IH]; cbn [scan_marker_tuples];
    [discriminate|].
  destruct (contains start (buffer st)); [|assumption].
  destruct (partition start (buffer st)) as [[[? ?] ?]|]; discriminate.
Qed.

Section Engine.

Variable sentence_callback : bool.
Variable marker_tuples : list marker.

Local Abbreviation step := (body_step sentence_callback marker_tuples).
Local Abbreviation run := (passes sentence_callback marker_tuples).
Local Abbreviation reach := (reachable sentence_callback marker_tuples).
Local Abbreviation inv := (invariant marker_tuples).
Local Abbreviation wf := (markers_wf marker_tuples).

Lemma calls_emit_sentence (text : string) (st : state) :
  calls (emit_sentence sentence_callback text st)
  = (calls st ++ sentence_calls sentence_callback text)%list.
Proof.
  unfold emit_sentence, sentence_calls.
  destruct (sentence_callback && truthy (strip text)); simpl;
    [reflexivity | now rewrite app_nil_r].
Qed.

Lemma loop_body_step (st : state) (f : flow) (st' : state) :
  loop_body sentence_callback marker_tuples st = Ok (f, st') -> step st f st'.
Proof.
  unfold loop_body. destruct (active_markers st) as [|a l] eqn:A.
  - unfold process_new_markers_or_sentences.
    destruct (scan_marker_tuples marker_tuples st) as [[st1|]| |] eqn:S;
      try discriminate.
    + intros H; injection H as <- <-.
      apply scan_marker_tuples_some in S as (m & b & r & I & Hne & Hb & ->).
      rewrite A. simpl. now apply (step_open sentence_callback marker_tuples st m b r).
    + unfold process_sentence.
      destruct (sentence_pattern_match (buffer st)) as [sentence|] eqn:M;
        intros H; injection H as <- <-.
      * now apply step_sentence.
      * now apply step_wait.
  - unfold process_active_markers. rewrite A.
    destruct (scan_active_markers 0 (a :: l) st) as [[j st1]| |] eqn:S;
      try discriminate.
    apply scan_active_markers_ok in S
      as [[-> ->] | (k & m & t & r & N & -> & Hne & Hb & T & ->)].
    + simpl. intros H; injection H as <- <-.
      apply step_blocked. rewrite A; discriminate.
    + replace (0 <=? 0 + Z.of_nat k)%Z with true by (symmetry; apply Z.leb_le; lia).
      replace (Z.to_nat (0 + Z.of_nat k)) with k by lia.
      replace (active_markers
                 (set_buffer r (invoke_marker (marker_callback m) t st)))
        with (a :: l)
        by (rewrite <- A; destruct (marker_callback m); reflexivity).
      destruct (pop_nth _ _ _ N) as (l' & P & _).
      rewrite P. intros H; injection H as <- <-.
      apply (step_close sentence_callback marker_tuples st k m l' t r);
        rewrite ?A; auto.
Qed.

(** The only exception of a pass is the [ValueError] of [partition] on an
    empty token, raised before the pass has called anything. *)
Lemma loop_body_raise (st : state) (e : exn) (log : list call) :
  loop_body sentence_callback marker_tuples st = Raise e log ->
  e = ValueError /\ log = calls st
  /\ exists m, (In m (active_markers st) /\ marker_end m = "")
               \/ (In m marker_tuples /\ marker_start m = "").
Proof.
  unfold loop_body. destruct (active_markers st) as [|a l] eqn:A.
  - unfold process_new_markers_or_sentences.
    destruct (scan_marker_tuples marker_tuples st) as [[st1|]| |] eqn:S;
      try discriminate.
    + destruct (process_sentence sentence_callback st) as [[|] ?]; discriminate.
    + intros H; injection H as <- <-.
      apply scan_marker_tuples_raise in S as (? & ? & m & ? & ?).
      repeat split; auto. exists m; auto.
  - unfold process_active_markers. rewrite A.
    destruct (scan_active_markers 0 (a :: l) st) as [[j st1]| |] eqn:S.
    + apply scan_active_markers_ok in S
        as [[-> ->] | (k & m & t & r & N & -> & Hne & Hb & T & ->)].
      * simpl. discriminate.
      * replace (0 <=? 0 + Z.of_nat k)%Z with true by (symmetry; apply Z.leb_le; lia).
        replace (Z.to_nat (0 + Z.of_nat k)) with k by lia.
        replace (active_markers
                   (set_buffer r (invoke_marker (marker_callback m) t st)))
          with (a :: l)
          by (rewrite <- A; destruct (marker_callback m); reflexivity).
        destruct (pop_nth _ _ _ N) as (l' & P & _). rewrite P. discriminate.
    + intros H; injection H as <- <-.
      apply scan_active_markers_raise in S as (? & ? & m & ? & ?).
      repeat split; auto. exists m; auto.
    + discriminate.
Qed.

Lemma loop_body_no_timeout (st : state) :
  loop_body sentence_callback marker_tuples st <> Timeout.
Proof.
  unfold loop_body. destruct (active_markers st) as [|a l] eqn:A.
  - unfold process_new_markers_or_sentences.
    pose proof (scan_marker_tuples_no_timeout marker_tuples st) as N.
    destruct (scan_marker_tuples marker_tuples st) as [[st1|]| |];
      try discriminate; [|congruence].
    destruct (process_sentence sentence_callback st) as [[|] ?]; discriminate.
  - unfold process_active_markers.
    pose proof (scan_active_markers_no_timeout (active_markers st) 0 st) as N.
    destruct (scan_active_markers 0 (active_markers st) st) as [[j st1]| |];
      try discriminate; [|congruence].
    destruct (0 <=? j)%Z; [|discriminate].
    destruct (pop (Z.to_nat j) (active_markers st1)); discriminate.
Qed.

Lemma strip_truthy (text : string) : truthy (strip text) = true -> text <> "".
Proof. intros H ->. discriminate. Qed.

Lemma buffer_invoke_marker (callback : option nat) (text : string) (st : state) :
  buffer (invoke_marker callback text st) = buffer st.
Proof. destruct callback; reflexivity. Qed.

Lemma buffer_emit_sentence (text : string) (st : state) :
  buffer (emit_sentence sentence_callback text st) = buffer st.
Proof. unfold emit_sentence. destruct (_ && _); reflexivity. Qed.

Lemma full_text_emit_sentence (text : string) (st : state) :
  full_text (emit_sentence sentence_callback text st) = full_text st.
Proof. unfold emit_sentence. destruct (_ && _); reflexivity. Qed.

Lemma active_markers_emit_sentence (text : string) (st : state) :
  active_markers (emit_sentence sentence_callback text st) = active_markers st.
Proof. unfold emit_sentence. destruct (_ && _); reflexivity. Qed.

(** A pass that continues has shortened the buffer; a pass that breaks has
    changed nothing. *)
Lemma body_step_progress (st : state) (f : flow) (st' : state) :
  step st f st' ->
  match f with
  | Continue => String.length (buffer st') < String.length (buffer st)
  | Break => st' = st
  end.
Proof.
  intros [st0 k m l t r N P Hne Hb T | st0 A | st0 m b r A I Hne Hb
         | st0 sentence A M | st0 A]; try reflexivity.
  - cbn [buffer set_active_markers set_buffer]. rewrite Hb, !length_append.
    apply strip_truthy in T. destruct t; [congruence|].
    destruct (marker_end m); [congruence|]. simpl; lia.
  - cbn [buffer set_active_markers set_buffer]. rewrite Hb, !length_append.
    destruct (marker_start m); [congruence|]. simpl; lia.
  - cbn [buffer set_buffer].
    apply sentence_pattern_match_split in M as [Hne Hb].
    rewrite drop_length. destruct sentence; [congruence|].
    rewrite Hb, length_append. simpl; lia.
Qed.

Lemma body_step_full_text (st : state) (f : flow) (st' : state) :
  step st f st' -> full_text st' = full_text st.
Proof.
  intros [st0 k m l t r N P Hne Hb T | st0 A | st0 m b r A I Hne Hb
         | st0 sentence A M | st0 A]; try reflexivity.
  - simpl. destruct (marker_callback m); reflexivity.
  - simpl. apply full_text_emit_sentence.
Qed.

(** ** Runs of the inner loop *)

Lemma consume_loop_passes (fuel : nat) :
  forall st st',
  consume_loop fuel sentence_callback marker_tuples st = Ok st' -> run st st'.
Proof.
  induction fuel as [|fuel IH]; intros st st'; simpl; [discriminate|].
  destruct (truthy (buffer st)) eqn:B.
  - destruct (loop_body sentence_callback marker_tuples st) as [[[|] st1]| |] eqn:L;
      try discriminate.
    + intros H. apply IH in H.
      now apply (passes_more sentence_callback marker_tuples st Continue st1).
    + intros H; injection H as <-.
      apply (passes_more sentence_callback marker_tuples st Break st1);
        [assumption | assumption | constructor].
  - intros H; injection H as <-. constructor.
Qed.

Lemma consume_loop_raise (fuel : nat) :
  forall st e log,
  consume_loop fuel sentence_callback marker_tuples st = Raise e log ->
  exists st1, run st st1
              /\ loop_body sentence_callback marker_tuples st1 = Raise e log.
Proof.
  induction fuel as [|fuel IH]; intros st e log; simpl; [discriminate|].
  destruct (truthy (buffer st)) eqn:B; [|discriminate].
  destruct (loop_body sentence_callback marker_tuples st) as [[[|] st1]| |] eqn:L;
    try discriminate.
  - intros H. apply IH in H as (st2 & P & R). exists st2. split; [|assumption].
    now apply (passes_more sentence_callback marker_tuples st Continue st1).
  - intros H; injection H as <- <-. exists st. split; [constructor | assumption].
Qed.

Lemma passes_buffer (st st' : state) :
  run st st' -> String.length (buffer st') <= String.length (buffer st).
Proof.
  induction 1 as [st | st f st1 st2 B L P IH]; [lia|].
  apply loop_body_step, body_step_progress in L.
  destruct f; [lia | subst; lia].
Qed.

Lemma passes_full_text (st st' : state) :
  run st st' -> full_text st' = full_text st.
Proof.
  induction 1 as [st | st f st1 st2 B L P IH]; [reflexivity|].
  apply loop_body_step, body_step_full_text in L. congruence.
Qed.

(** The inner loop makes at most as many passes as the buffer has
    characters, and one more test of its condition: with that much fuel
    or more it never runs out, and the result is the same. *)
Lemma consume_loop_fuel (fuel1 : nat) :
  forall fuel2 st,
  String.length (buffer st) < fuel1 -> String.length (buffer st) < fuel2 ->
  consume_loop fuel1 sentence_callback marker_tuples st
  = consume_loop fuel2 sentence_callback marker_tuples st
  /\ consume_loop fuel1 sentence_callback marker_tuples st <> Timeout.
Proof.
  induction fuel1 as [|fuel1 IH]; intros [|fuel2] st H1 H2; try lia.
  simpl. destruct (truthy (buffer st)) eqn:B; [|split; [reflexivity | discriminate]].
  pose proof (loop_body_no_timeout st) as N.
  destruct (loop_body sentence_callback marker_tuples st) as [[[|] st1]| |] eqn:L;
    try (split; [reflexivity | discriminate]); [|congruence].
  apply loop_body_step, body_step_progress in L. apply IH; lia.
Qed.

(** ** The states of a run *)

Lemma passes_reachable (st st' : state) :
  run st st' -> reach st -> reach st'.
Proof.
  induction 1 as [st | st f st1 st2 B L P IH]; [auto|].
  intros R. apply IH. now apply (reach_body sentence_callback marker_tuples st f st1).
Qed.

Lemma stream_loop_reachable (fuel : nat) (text_stream : list string) :
  forall st st',
  stream_loop fuel sentence_callback marker_tuples text_stream st = Ok st' ->
  reach st -> reach st'.
Proof.
  induction text_stream as [|chunk text_stream IH]; intros st st'; simpl.
  - intros H; injection H as <-. auto.
  - destruct (consume_loop fuel sentence_callback marker_tuples
                (append_chunk chunk st)) as [st1| |] eqn:C; try discriminate.
    intros H R. apply (IH _ _ H).
    apply consume_loop_passes in C. apply (passes_reachable _ _ C).
    now constructor.
Qed.

Lemma stream_loop_raise (fuel : nat) (text_stream : list string) :
  forall st e log,
  stream_loop fuel sentence_callback marker_tuples text_stream st = Raise e log ->
  reach st ->
  exists st1, reach st1
              /\ loop_body sentence_callback marker_tuples st1 = Raise e log.
Proof.
  induction text_stream as [|chunk text_stream IH]; intros st e log; simpl;
    [discriminate|].
  destruct (consume_loop fuel sentence_callback marker_tuples
              (append_chunk chunk st)) as [st1| |] eqn:C; try discriminate.
  - intros H R. apply (IH _ _ _ H).
    apply consume_loop_passes in C. apply (passes_reachable _ _ C).
    now constructor.
  - intros H R; injection H as <- <-.
    apply consume_loop_raise in C as (st1 & P & L). exists st1.
    split; [|assumption]. apply (passes_reachable _ _ P). now constructor.
Qed.

Lemma flush_loop_reachable (fuel : nat) :
  forall st st',
  flush_loop fuel sentence_callback st = Ok st' -> reach st -> reach st'.
Proof.
  induction fuel as [|fuel IH]; intros st st'; simpl; [discriminate|].
  destruct (truthy (buffer st)) eqn:B.
  - destruct (flush_body sentence_callback st) as [[|] st1] eqn:F; intros H R.
    + apply (IH _ _ H).
      now apply (reach_flush sentence_callback marker_tuples st Continue st1).
    + injection H as <-.
      now apply (reach_flush sentence_callback marker_tuples st Break st1).
  - intros H; injection H as <-. auto.
Qed.

(** ** Invariants *)

Lemma emit_sentence_ok (text : string) (st : state) :
  Forall sentence_ok (calls st) ->
  Forall sentence_ok (calls (emit_sentence sentence_callback text st)).
Proof.
  unfold emit_sentence. destruct sentence_callback; simpl; [|auto].
  destruct (truthy (strip text)) eqn:T; [|auto].
  intros H. simpl. apply Forall_app. split; [assumption|].
  constructor; [|constructor]. simpl. split; [|apply strip_idem].
  now apply truthy_true.
Qed.

Lemma invoke_marker_ok (callback : option nat) (text : string) (st : state) :
  Forall sentence_ok (calls st) ->
  Forall sentence_ok (calls (invoke_marker callback text st)).
Proof.
  destruct callback; simpl; [|auto]. intros H. apply Forall_app.
  split; [assumption | repeat constructor].
Qed.

Lemma body_step_invariant (st : state) (f : flow) (st' : state) :
  step st f st' -> inv st -> inv st'.
Proof.
  intros [st0 k m l t r N P Hne Hb T | st0 A | st0 m b r A I Hne Hb
         | st0 sentence A M | st0 A] [H1 H2 H3]; try (constructor; assumption).
  - destruct (pop_nth _ _ _ N) as (l' & P' & L & Hin).
    rewrite P in P'; injection P' as <-.
    constructor; cbn [active_markers calls set_active_markers set_buffer].
    + lia.
    + apply Forall_forall. intros x Hx.
      rewrite Forall_forall in H2. auto.
    + now apply invoke_marker_ok.
  - constructor; simpl; auto.
  - constructor; cbn [active_markers calls set_buffer].
    + now rewrite active_markers_emit_sentence.
    + now rewrite active_markers_emit_sentence.
    + now apply emit_sentence_ok.
Qed.

Lemma flush_body_invariant (st : state) (f : flow) (st' : state) :
  flush_body sentence_callback st = (f, st') -> inv st -> inv st'.
Proof.
  unfold flush_body. destruct (active_markers st) as [|a l] eqn:A;
    intros H [H1 H2 H3]; injection H as <- <-.
  - constructor.
    + now rewrite active_markers_emit_sentence.
    + now rewrite active_markers_emit_sentence.
    + now apply emit_sentence_ok.
  - rewrite A in H1, H2. simpl in H1. inversion H2.
    constructor; simpl; [lia | assumption | assumption].
Qed.

(** Every state of a run has at most one active marker, taken from
    [marker_tuples], and a log of sentence calls that are in order. *)
Lemma reachable_invariant (st : state) : reach st -> inv st.
Proof.
  induction 1 as [| chunk st R IH | st f st' R IH B L | st f st' R IH B F].
  - constructor; simpl; auto.
  - destruct IH. constructor; assumption.
  - apply loop_body_step in L. now apply (body_step_invariant st f st').
  - now apply (flush_body_invariant st f st').
Qed.

(** ** The whole stream *)

Lemma stream_loop_full_text (fuel : nat) (text_stream : list string) :
  forall st st',
  stream_loop fuel sentence_callback marker_tuples text_stream st = Ok st' ->
  full_text st' = full_text st ++ String.concat "" text_stream.
Proof.
  induction text_stream as [|chunk text_stream IH]; intros st st'.
  - simpl. intros H; injection H as <-. now rewrite append_nil_r.
  - cbn [stream_loop].
    destruct (consume_loop fuel sentence_callback marker_tuples
                (append_chunk chunk st)) as [st1| |] eqn:C; try discriminate.
    intros H. apply IH in H. apply consume_loop_passes, passes_full_text in C.
    rewrite H, C, concat_cons. simpl. apply append_assoc.
Qed.

Lemma stream_loop_fuel (text_stream : list string) :
  forall fuel1 fuel2 st,
  String.length (buffer st) + String.length (String.concat "" text_stream) < fuel1 ->
  String.length (buffer st) + String.length (String.concat "" text_stream) < fuel2 ->
  stream_loop fuel1 sentence_callback marker_tuples text_stream st
  = stream_loop fuel2 sentence_callback marker_tuples text_stream st
  /\ stream_loop fuel1 sentence_callback marker_tuples text_stream st <> Timeout
  /\ forall st',
       stream_loop fuel1 sentence_callback marker_tuples text_stream st = Ok st' ->
       String.length (buffer st')
       <= String.length (buffer st) + String.length (String.concat "" text_stream).
Proof.
  induction text_stream as [|chunk text_stream IH]; intros fuel1 fuel2 st H1 H2.
  - simpl. repeat split; [discriminate|]. intros st' H; injection H as <-. lia.
  - rewrite concat_cons, length_append in H1, H2. cbn [stream_loop].
    assert (B : String.length (buffer (append_chunk chunk st))
                = String.length (buffer st) + String.length chunk)
      by (simpl; apply length_append).
    destruct (consume_loop_fuel fuel1 fuel2 (append_chunk chunk st)) as [E N];
      [lia | lia |].
    rewrite <- E.
    destruct (consume_loop fuel1 sentence_callback marker_tuples
                (append_chunk chunk st)) as [st1| |] eqn:C;
      [|repeat split; discriminate | congruence].
    apply consume_loop_passes, passes_buffer in C.
    destruct (IH fuel1 fuel2 st1) as (E' & N' & L'); [lia | lia |].
    repeat split; [assumption | assumption |].
    intros st' H. apply L' in H. rewrite concat_cons, length_append. lia.
Qed.

(** The final loop: it never raises, makes at most one pass more than
    there are active markers, and adds the one call of [emit_sentence]. *)
Lemma flush_loop_spec (fuel : nat) :
  forall st,
  List.length (active_markers st) < fuel ->
  exists st',
    flush_loop fuel sentence_callback st = Ok st'
    /\ full_text st' = full_text st
    /\ calls st' = (calls st ++ sentence_calls sentence_callback (buffer st))%list.
Proof.
  induction fuel as [|fuel IH]; intros st H; [lia|].
  cbn [flush_loop]. destruct (truthy (buffer st)) eqn:B.
  - unfold flush_body. destruct (active_markers st) as [|a l] eqn:A.
    + eexists. split; [reflexivity|].
      split; [apply full_text_emit_sentence | apply calls_emit_sentence].
    + simpl in H. destruct (IH (set_active_markers l st)) as (st' & F & T & C);
        [simpl; lia|].
      exists st'. auto.
  - exists st. apply truthy_false in B. rewrite B. unfold sentence_calls.
    simpl. rewrite andb_false_r, app_nil_r. auto.
Qed.

Lemma flush_loop_raise (fuel : nat) (st : state) (e : exn) (log : list call) :
  flush_loop fuel sentence_callback st <> Raise e log.
Proof.
  revert st; induction fuel as [|fuel IH]; intros st; simpl; [discriminate|].
  destruct (truthy (buffer st)); [|discriminate].
  destruct (flush_body sentence_callback st) as [[|] ?]; [apply IH | discriminate].
Qed.

(** With [enough_fuel] no loop runs out, and more fuel changes nothing. *)
Lemma process_text_stream_fuel_enough (text_stream : list string) (fuel : nat) :
  enough_fuel text_stream <= fuel ->
  process_text_stream_fuel fuel text_stream sentence_callback marker_tuples
  = process_text_stream text_stream sentence_callback marker_tuples
  /\ process_text_stream text_stream sentence_callback marker_tuples <> Timeout.
Proof.
  unfold process_text_stream, process_text_stream_fuel, enough_fuel. intros Hf.
  set (n := String.length (String.concat "" text_stream)) in *.
  destruct (stream_loop_fuel text_stream (S n) fuel initial) as (E & N & L);
    [simpl; fold n; lia | simpl; fold n; lia |].
  rewrite <- E.
  destruct (stream_loop (S n) sentence_callback marker_tuples text_stream initial)
    as [st| |] eqn:S; [|split; [reflexivity | discriminate] | congruence].
  specialize (L st eq_refl). simpl in L. fold n in L.
  pose proof (reachable_invariant st
                (stream_loop_reachable _ _ _ _ S
                   (reach_initial sentence_callback marker_tuples))) as [A _ _].
  destruct fuel as [|fuel]; [lia|]. cbn [flush_loop].
  destruct (truthy (buffer st)) eqn:B; [|split; [reflexivity | discriminate]].
  apply truthy_length in B.
  destruct n as [|n]; [lia|]. destruct fuel as [|fuel]; [lia|].
  unfold flush_body. destruct (active_markers st) as [|a [|b l]] eqn:Am;
    [split; [reflexivity | discriminate] | | simpl in A; lia].
  assert (B' : truthy (buffer (set_active_markers [] st)) = true)
    by (apply truthy_length; simpl; lia).
  cbn [flush_loop]. rewrite B'. unfold flush_body. simpl.
  split; [reflexivity | discriminate].
Qed.

(** ** Well-formed marker tuples *)

Lemma loop_body_wf (st : state) :
  wf -> inv st ->
  exists f st', loop_body sentence_callback marker_tuples st = Ok (f, st').
Proof.
  intros W [_ I _].
  pose proof (loop_body_no_timeout st) as N.
  destruct (loop_body sentence_callback marker_tuples st) as [[f st']|e log|] eqn:L;
    [eauto | | congruence].
  exfalso. unfold markers_wf in W. rewrite Forall_forall in W, I.
  apply loop_body_raise in L as (_ & _ & m & [[Hm E] | [Hm E]]).
  - apply I, W in Hm. tauto.
  - apply W in Hm. tauto.
Qed.

(** With well-formed marker tuples the routine returns, and it returns
    the chunks joined. *)
Lemma process_text_stream_returns (text_stream : list string) :
  wf ->
  exists log,
    process_text_stream text_stream sentence_callback marker_tuples
    = Ok (String.concat "" text_stream, log).
Proof.
  intros W.
  destruct (process_text_stream_fuel_enough text_stream (enough_fuel text_stream))
    as [_ N]; [lia|].
  unfold process_text_stream, process_text_stream_fuel in *.
  destruct (stream_loop (enough_fuel text_stream) sentence_callback marker_tuples
              text_stream initial) as [st|e log|] eqn:S; [| |congruence].
  - pose proof (flush_loop_raise (enough_fuel text_stream) st) as NR.
    destruct (flush_loop (enough_fuel text_stream) sentence_callback st)
      as [st'|e log|] eqn:F; [| exfalso; exact (NR _ _ eq_refl) | congruence].
    exists (calls st'). repeat f_equal.
    apply stream_loop_full_text in S. simpl in S.
    assert (T : full_text st' = full_text st).
    { clear - F. revert st F.
      induction (enough_fuel text_stream) as [|fuel IH]; intros st; simpl;
        [discriminate|].
      destruct (truthy (buffer st)); [|intros H; injection H as <-; reflexivity].
      unfold flush_body. destruct (active_markers st) as [|a l].
      - intros H; injection H as <-. apply full_text_emit_sentence.
      - intros H. apply IH in H. exact H. }
    congruence.
  - exfalso. apply stream_loop_raise in S as (st1 & R & L); [|constructor].
    destruct (loop_body_wf st1 W (reachable_invariant st1 R)) as (f & st' & L').
    congruence.
Qed.

(** Whatever the marker tuples are, a run that returns returns the chunks
    joined, and its log is the log of the stream loop followed by the one
    call that the final loop may make. *)
Lemma process_text_stream_flush (text_stream : list string) (st : state) :
  stream_loop (enough_fuel text_stream) sentence_callback marker_tuples
    text_stream initial = Ok st ->
  full_text st = String.concat "" text_stream
  /\ process_text_stream text_stream sentence_callback marker_tuples
     = Ok (full_text st,
           (calls st ++ sentence_calls sentence_callback (buffer st))%list).
Proof.
  intros S. split; [now apply stream_loop_full_text in S|].
  unfold process_text_stream, process_text_stream_fuel. rewrite S.
  pose proof (reachable_invariant st
                (stream_loop_reachable _ _ _ _ S
                   (reach_initial sentence_callback marker_tuples))) as [A _ _].
  destruct (truthy (buffer st)) eqn:B.
  - destruct (stream_loop_fuel text_stream (enough_fuel text_stream)
                (enough_fuel text_stream) initial) as (_ & _ & L);
      [unfold enough_fuel; simpl; lia | unfold enough_fuel; simpl; lia |].
    specialize (L st S). simpl in L. apply truthy_length in B.
    destruct (flush_loop_spec (enough_fuel text_stream) st) as (st' & F & T & C);
      [unfold enough_fuel; lia|].
    rewrite F, T, C. reflexivity.
  - unfold enough_fuel. cbn [flush_loop]. rewrite B.
    apply truthy_false in B. rewrite B. unfold sentence_calls. simpl.
    now rewrite andb_false_r, app_nil_r.
Qed.

Lemma process_text_stream_text (text_stream : list string)
    (text : string) (log : list call) :
  process_text_stream text_stream sentence_callback marker_tuples = Ok (text, log) ->
  text = String.concat "" text_stream.
Proof.
  intros H.
  destruct (stream_loop (enough_fuel text_stream) sentence_callback marker_tuples
              text_stream initial) as [st|e l|] eqn:S.
  - apply process_text_stream_flush in S as [T E]. congruence.
  - unfold process_text_stream, process_text_stream_fuel in H.
    rewrite S in H. discriminate.
  - unfold process_text_stream, process_text_stream_fuel in H.
    rewrite S in H. discriminate.
Qed.

(** The calls of a run, also of one that raises, are in order. *)
Lemma process_text_stream_calls (text_stream : list string) :
  Forall sentence_ok
    (calls_of snd (process_text_stream text_stream sentence_callback marker_tuples)).
Proof.
  destruct (stream_loop (enough_fuel text_stream) sentence_callback marker_tuples
              text_stream initial) as [st|e l|] eqn:S.
  - pose proof (reachable_invariant st
                  (stream_loop_reachable _ _ _ _ S
                     (reach_initial sentence_callback marker_tuples))) as [_ _ C].
    apply process_text_stream_flush in S as [_ ->]. simpl.
    apply Forall_app. split; [assumption|].
    unfold sentence_calls. destruct sentence_callback; simpl; [|constructor].
    destruct (truthy (strip (buffer st))) eqn:T; constructor; [|constructor].
    simpl. split; [now apply truthy_true | apply strip_idem].
  - unfold process_text_stream, process_text_stream_fuel. rewrite S. simpl.
    apply stream_loop_raise in S as (st1 & R & L); [|constructor].
    apply loop_body_raise in L as (_ & -> & _).
    now destruct (reachable_invariant st1 R).
  - unfold process_text_stream, process_text_stream_fuel. rewrite S. constructor.
Qed.

(** A pass that starts with an active marker does not open another. *)
Lemma body_step_no_nesting (st : state) (f : flow) (st' : state) :
  step st f st' -> active_markers st <> [] ->
  List.length (active_markers st') <= List.length (active_markers st).
Proof.
  intros [st0 k m l t r N P Hne Hb T | st0 A | st0 m b r A I Hne Hb
         | st0 sentence A M | st0 A] Hact; try congruence; try lia.
  destruct (pop_nth _ _ _ N) as (l' & P' & L & _).
  rewrite P in P'; injection P' as <-. simpl. lia.
Qed.

End Engine.

(** * The properties of the routine *)

(** ** Returned text *)

(** C1.  For every chunk sequence the routine returns the chunks joined in
    arrival order: with marker tuples whose tokens are non-empty it always
    returns, whatever the callbacks; whenever it returns, whatever the
    marker tuples, the text is the chunks joined, so that two splittings of
    one text return the same; and on the empty sequence it returns the
    empty string and calls nothing. *)
Theorem process_text_stream_full_text
    (text_stream : list string) (sentence_callback : bool)
    (marker_tuples : list marker) :
  (markers_wf marker_tuples ->
   exists log,
     process_text_stream text_stream sentence_callback marker_tuples
     = Ok (String.concat "" text_stream, log))
  /\ (forall text log,
        process_text_stream text_stream sentence_callback marker_tuples
        = Ok (text, log) ->
        text = String.concat "" text_stream)
  /\ (forall text_stream' sentence_callback' marker_tuples',
        markers_wf marker_tuples -> markers_wf marker_tuples' ->
        String.concat "" text_stream = String.concat "" text_stream' ->
        returned (process_text_stream text_stream sentence_callback marker_tuples)
        = returned (process_text_stream text_stream' sentence_callback' marker_tuples')
        /\ returned (process_text_stream text_stream sentence_callback marker_tuples)
           = Some (String.concat "" text_stream))
  /\ process_text_stream [] sentence_callback marker_tuples = Ok ("", []).
Proof.
  split; [apply process_text_stream_returns|].
  split; [apply process_text_stream_text|].
  split; [|reflexivity].
  intros ts' scb' ms' W W' E.
  destruct (process_text_stream_returns sentence_callback marker_tuples text_stream W)
    as [log ->].
  destruct (process_text_stream_returns scb' ms' ts' W') as [log' ->].
  simpl. now rewrite E.
Qed.

Lemma process_text_stream_full_text_witness :
  (exists log,
     process_text_stream ["<tag>se"; "cret</t"; "ag>Hello wor"; "ld. Bye"] true [tag]
     = Ok ("<tag>secret</tag>Hello world. Bye", log))
  /\ returned (process_text_stream ["<tag>secret</tag>Hello world."; " Bye"] false [])
     = returned (process_text_stream
                   ["<tag>se"; "cret</t"; "ag>Hello wor"; "ld. Bye"] true [tag]).
Proof.
  assert (W : markers_wf [tag]) by (repeat constructor; discriminate).
  assert (W0 : markers_wf []) by constructor.
  split.
  - exact (proj1 (process_text_stream_full_text
                    ["<tag>se"; "cret</t"; "ag>Hello wor"; "ld. Bye"] true [tag]) W).
  - destruct (process_text_stream_full_text
                ["<tag>secret</tag>Hello world."; " Bye"] false [])
      as (_ & _ & F & _).
    exact (proj1 (F ["<tag>se"; "cret</t"; "ag>Hello wor"; "ld. Bye"] true [tag]
                    W0 W eq_refl)).
Defined.

(** ** Newlines *)

(** C2, as stated, fails: on ["line one\nline two"] the sentence callback
    is not called with ["line one"] and then ["line two"]. *)
Lemma newline_does_not_split_counterexample :
  calls_of snd (process_text_stream [line_one_line_two] true [])
  <> [SentenceCall "line one"; SentenceCall "line two"].
Proof. vm_compute. discriminate. Qed.

(** C2, amended.  On ["line one\nline two"], one chunk and no markers, the
    newline inside the text ends no sentence: the pattern does not match
    the buffer, and the sentence callback is called once, by the final
    loop, with the whole text. *)
Theorem newline_inside_text_is_kept :
  sentence_pattern_match line_one_line_two = None
  /\ process_text_stream [line_one_line_two] true []
     = Ok (line_one_line_two, [SentenceCall line_one_line_two]).
Proof. split; reflexivity. Qed.

(** ** Markers around blank text *)

(** A pass that finds the end-token of the one active marker after blank
    text changes nothing and breaks: the marker stays active and the
    buffer stays as it is. *)
Lemma blank_marker_blocks (sentence_callback : bool) (marker_tuples : list marker)
    (st : state) (m : marker) (marked_text sep rest : string) :
  active_markers st = [m] ->
  contains (marker_end m) (buffer st) = true ->
  partition (marker_end m) (buffer st) = Some (marked_text, sep, rest) ->
  truthy (strip marked_text) = false ->
  loop_body sentence_callback marker_tuples st = Ok (Break, st).
Proof.
  intros A C P T. unfold loop_body, process_active_markers. rewrite A.
  destruct m as [[start end_] callback]. unfold marker_end in *; simpl in C, P.
  cbn [scan_active_markers]. rewrite C, P, T. reflexivity.
Qed.

(** C3 fails on the code.  With the marker [tag] active and the buffer
    [" </tag>rest. More."], the pass breaks with the state unchanged: the
    marker is not closed and the buffer is not advanced.  The whole run on
    ["<tag> </tag>rest. More."] therefore emits nothing before the final
    loop, which hands the end-token and all that follows to the sentence
    callback. *)
Theorem blank_marker_is_not_closed :
  let st := {| full_text := "<tag> </tag>rest. More.";
               buffer := " </tag>rest. More.";
               active_markers := [tag]; calls := [] |} in
  loop_body true [tag] st = Ok (Break, st)
  /\ process_text_stream ["<tag> </tag>rest. More."] true [tag]
     = Ok ("<tag> </tag>rest. More.", [SentenceCall "</tag>rest. More."])
  /\ process_text_stream ["<tag>x</tag>rest. More."] true [tag]
     = Ok ("<tag>x</tag>rest. More.",
           [MarkerCall 1 "x"; SentenceCall "rest."; SentenceCall "More."]).
Proof. repeat split; reflexivity. Qed.

(** ** End of the stream *)

(** A marker that is active was opened by a pass from a state without
    active marker, and since that pass the run has only received chunks:
    nothing was called, and the buffer holds the text that followed the
    start-token then and all that has arrived since. *)
Lemma active_marker_since_opening
    (sentence_callback : bool) (marker_tuples : list marker) (st : state) :
  reachable sentence_callback marker_tuples st ->
  forall m l,
  active_markers st = m :: l ->
  l = []
  /\ exists st0 before rest later,
       reachable sentence_callback marker_tuples st0
       /\ active_markers st0 = []
       /\ buffer st0 = before ++ marker_start m ++ rest
       /\ loop_body sentence_callback marker_tuples st0
          = Ok (Continue, set_active_markers [m] (set_buffer rest st0))
       /\ calls st = calls st0
       /\ buffer st = rest ++ later
       /\ full_text st = full_text st0 ++ later.
Proof.
  induction 1 as [| chunk st R IH | st f st' R IH B L | st f st' R IH B F];
    intros m l A.
  - discriminate.
  - destruct (IH m l A) as (-> & st0 & before & rest & later & R0 & A0 & B0 & L0
                            & C0 & Bu & Ft).
    split; [reflexivity|].
    exists st0, before, rest, (later ++ chunk). simpl.
    rewrite Bu, Ft, !append_assoc. auto 8.
  - pose proof (reachable_invariant _ _ _ R) as [One _ _].
    pose proof (loop_body_step _ _ _ _ _ L) as St.
    destruct St as [st k m0 l0 t r N P Hne Hb T | st A0 | st m0 b r A0 I Hne Hb
                   | st sentence A0 M | st A0].
    + exfalso. destruct (pop_nth _ _ _ N) as (l' & P' & Len & _).
      rewrite P in P'; injection P' as <-. simpl in A. subst l0.
      simpl in Len. lia.
    + now apply IH.
    + simpl in A. injection A as <- <-. split; [reflexivity|].
      exists st, b, r, "". rewrite !append_nil_r. auto 8.
    + simpl in A. rewrite active_markers_emit_sentence in A. congruence.
    + congruence.
  - pose proof (reachable_invariant _ _ _ R) as [One _ _].
    unfold flush_body in F. destruct (active_markers st) as [|a l0] eqn:A0;
      injection F as <- <-.
    + rewrite active_markers_emit_sentence in A. congruence.
    + simpl in A. subst l0. simpl in One. lia.
Qed.

(** C4.  When the stream ends with a marker [m] still active, the marker
    was opened by a pass that cut the buffer after the start-token, and
    from that pass to the end of the run no callback was called: the
    callback of [m] gets no call for the text that followed its
    start-token.  That text and all that arrived after it are still in the
    buffer when the stream ends, and the final loop hands them, stripped
    and if not blank, to the sentence callback in one call; neither the
    start-token nor the text before it is part of that call. *)
Theorem unterminated_marker_is_flushed
    (text_stream : list string) (sentence_callback : bool)
    (marker_tuples : list marker) (st : state) (m : marker) (l : list marker) :
  stream_loop (enough_fuel text_stream) sentence_callback marker_tuples
    text_stream initial = Ok st ->
  active_markers st = m :: l ->
  exists st0 before rest later,
    reachable sentence_callback marker_tuples st0
    /\ active_markers st0 = []
    /\ buffer st0 = before ++ marker_start m ++ rest
    /\ loop_body sentence_callback marker_tuples st0
       = Ok (Continue, set_active_markers [m] (set_buffer rest st0))
    /\ active_markers st = [m]
    /\ calls st = calls st0
    /\ buffer st = rest ++ later
    /\ full_text st = full_text st0 ++ later
    /\ process_text_stream text_stream sentence_callback marker_tuples
       = Ok (String.concat "" text_stream,
             (calls st0
              ++ (if sentence_callback && truthy (strip (rest ++ later))
                  then [SentenceCall (strip (rest ++ later))] else []))%list).
Proof.
  intros Sl A.
  assert (R : reachable sentence_callback marker_tuples st)
    by (apply (stream_loop_reachable _ _ _ _ _ _ Sl); constructor).
  destruct (active_marker_since_opening _ _ _ R m l A)
    as (-> & st0 & before & rest & later & R0 & A0 & B0 & L0 & C0 & Bu & Ft).
  exists st0, before, rest, later.
  apply process_text_stream_flush in Sl as [T E].
  unfold sentence_calls in E. rewrite C0, Bu, T in E.
  split; [exact R0|]. split; [exact A0|]. split; [exact B0|].
  split; [exact L0|]. split; [exact A|]. split; [exact C0|].
  split; [exact Bu|]. split; [exact Ft | exact E].
Qed.

Lemma unterminated_marker_is_flushed_witness :
  let st := {| full_text := "<tag>a</tag>Hi. <tag> par" ++ "tial ";
               buffer := " partial "; active_markers := [tag];
               calls := [MarkerCall 1 "a"] |} in
  exists st0 before rest later,
    reachable true [tag] st0
    /\ active_markers st0 = []
    /\ buffer st0 = before ++ "<tag>" ++ rest
    /\ loop_body true [tag] st0
       = Ok (Continue, set_active_markers [tag] (set_buffer rest st0))
    /\ active_markers st = [tag]
    /\ calls st = calls st0
    /\ buffer st = rest ++ later
    /\ full_text st = full_text st0 ++ later
    /\ process_text_stream ["<tag>a</tag>Hi. <tag> par"; "tial "] true [tag]
       = Ok ("<tag>a</tag>Hi. <tag> partial ",
             (calls st0
              ++ (if true && truthy (strip (rest ++ later))
                  then [SentenceCall (strip (rest ++ later))] else []))%list).
Proof.
  exact (unterminated_marker_is_flushed
           ["<tag>a</tag>Hi. <tag> par"; "tial "] true [tag]
           {| full_text := "<tag>a</tag>Hi. <tag> par" ++ "tial ";
              buffer := " partial "; active_markers := [tag];
              calls := [MarkerCall 1 "a"] |}
           tag [] eq_refl eq_refl).
Defined.

(** The runs of the example: the tag that is never closed gets no call,
    also after a region of the same tag that was closed, and what follows
    it reaches the sentence callback stripped. *)
Example unterminated_marker_runs :
  process_text_stream ["<tag>partial"] true [tag]
  = Ok ("<tag>partial", [SentenceCall "partial"])
  /\ process_text_stream ["<tag>a</tag>Hi. <tag> par"; "tial "] true [tag]
     = Ok ("<tag>a</tag>Hi. <tag> partial ",
           [MarkerCall 1 "a"; SentenceCall "partial"]).
Proof. split; reflexivity. Qed.

(** ** The sentence splitter *)

Lemma sentence_pattern_match_extracted (buffer : string) :
  extracted buffer (sentence_pattern_match buffer).
Proof.
  unfold sentence_pattern_match.
  destruct (lazy_terminator buffer) as [n|] eqn:E.
  - apply lazy_terminator_some in E as (P & L & M).
    apply extracted_sentence; [assumption|]. now rewrite L.
  - pose proof (lazy_terminator_none _ E) as N.
    destruct buffer as [|c rest].
    + apply extracted_nothing; [assumption | discriminate].
    + destruct (Ascii.eqb_spec c newline) as [->|Hc].
      * now apply (extracted_newline _ rest).
      * apply extracted_nothing; [assumption | congruence].
Qed.

(** C5, as stated, fails.  On ["A. B."] the pattern extracts ["A. "], the
    terminator with the whitespace after it, which is not the longest
    prefix that the claim describes: ["A. B."] is one.  On ["ab\ncd"] it
    extracts nothing, although ["ab\n"] is a run up to a newline. *)
Lemma longest_prefix_counterexample :
  (sentence_pattern_match "A. B." = Some "A. "
   /\ ~ claimed_extraction "A. B." "A. ")
  /\ (sentence_pattern_match ("ab" ++ String newline "cd") = None
      /\ claimed_prefix ("ab" ++ String newline "cd") ("ab" ++ String newline "")).
Proof.
  split; split; try reflexivity.
  - intros [_ L]. specialize (L "A. B.").
    assert (P : claimed_prefix "A. B." "A. B.").
    { exists "". split; [reflexivity|]. left. exists "A. B", "."%char. auto. }
    apply L in P. simpl in P. lia.
  - exists "cd". split; [reflexivity|]. right. now exists "ab".
Qed.

(** C5, amended.  When no marker is active and no start-token is in the
    buffer, the pass extracts the shortest prefix of the buffer made of a
    run of characters, a terminator that whitespace or the end of the
    buffer follows, and that whitespace character if there is one; when
    there is no such prefix and the buffer starts with a newline, it
    extracts that newline; otherwise it extracts nothing and breaks.  What
    is extracted is handed, stripped and if not blank, to the sentence
    callback and is removed from the front of the buffer. *)
Theorem sentence_splitter_extracts_shortest
    (sentence_callback : bool) (marker_tuples : list marker) (st : state) :
  active_markers st = [] ->
  Forall (fun m => contains (marker_start m) (buffer st) = false) marker_tuples ->
  extracted (buffer st) (sentence_pattern_match (buffer st))
  /\ match sentence_pattern_match (buffer st) with
     | Some p =>
         exists rest,
           buffer st = p ++ rest /\ p <> ""
           /\ loop_body sentence_callback marker_tuples st
              = Ok (Continue,
                    set_buffer rest (emit_sentence sentence_callback p st))
     | None => loop_body sentence_callback marker_tuples st = Ok (Break, st)
     end.
Proof.
  intros A N. split; [apply sentence_pattern_match_extracted|].
  apply scan_marker_tuples_none in N.
  unfold loop_body, process_new_markers_or_sentences, process_sentence.
  rewrite A, N.
  destruct (sentence_pattern_match (buffer st)) as [p|] eqn:M; [|reflexivity].
  apply sentence_pattern_match_split in M as [Hne Hb].
  exists (drop (String.length p) (buffer st)). auto.
Qed.

Lemma sentence_splitter_extracts_shortest_witness :
  let st := {| full_text := "A. B."; buffer := "A. B.";
               active_markers := []; calls := [] |} in
  extracted "A. B." (Some "A. ")
  /\ exists rest,
       "A. B." = "A. " ++ rest /\ "A. " <> ""
       /\ loop_body true [tag] st
          = Ok (Continue, set_buffer rest (emit_sentence true "A. " st)).
Proof.
  exact (sentence_splitter_extracts_shortest true [tag]
           {| full_text := "A. B."; buffer := "A. B.";
              active_markers := []; calls := [] |}
           eq_refl (Forall_cons tag eq_refl (Forall_nil _))).
Defined.

(** ** Opening a marker *)

(** C6.  When no marker is active, the pass opens the first tuple of
    [marker_tuples], in list order, whose start-token is in the buffer,
    wherever the start-tokens of later tuples are: the buffer becomes the
    text after the leftmost occurrence of that start-token (the token
    starts nowhere in the text before it), the tuple becomes the one
    active marker, and nothing is called. *)
Theorem first_listed_marker_opens
    (sentence_callback : bool) (marker_tuples : list marker) (st : state)
    (skipped : list marker) (m : marker) (later : list marker) :
  active_markers st = [] ->
  marker_tuples = (skipped ++ m :: later)%list ->
  Forall (fun x => contains (marker_start x) (buffer st) = false) skipped ->
  contains (marker_start m) (buffer st) = true ->
  marker_start m <> "" ->
  exists before rest,
    buffer st = before ++ marker_start m ++ rest
    /\ (forall a b, before = a ++ b -> b <> "" ->
        prefix (marker_start m) (b ++ marker_start m ++ rest) = false)
    /\ loop_body sentence_callback marker_tuples st
       = Ok (Continue,
             {| full_text := full_text st; buffer := rest;
                active_markers := [m]; calls := calls st |}).
Proof.
  intros A -> Hs Hm Hne.
  destruct (partition_found _ _ Hne Hm) as (before & rest & P & Hsplit & Hb).
  exists before, rest.
  split; [assumption|]. split; [exact (split_first_leftmost _ _ _ _ Hsplit)|].
  unfold loop_body, process_new_markers_or_sentences.
  rewrite A, (scan_marker_tuples_first skipped m later st Hs Hm), P, A.
  reflexivity.
Qed.

Lemma first_listed_marker_opens_witness :
  exists before rest,
    "x<a>y<b>z" = before ++ "<b>" ++ rest
    /\ (forall a b, before = a ++ b -> b <> "" ->
        prefix "<b>" (b ++ "<b>" ++ rest) = false)
    /\ loop_body true [("<c>", "</c>", None); ("<b>", "</b>", Some 2);
                       ("<a>", "</a>", Some 3)]
         {| full_text := "x<a>y<b>z"; buffer := "x<a>y<b>z";
            active_markers := []; calls := [] |}
       = Ok (Continue,
             {| full_text := "x<a>y<b>z"; buffer := rest;
                active_markers := [("<b>", "</b>", Some 2)]; calls := [] |}).
Proof.
  apply (first_listed_marker_opens true
           [("<c>", "</c>", None); ("<b>", "</b>", Some 2); ("<a>", "</a>", Some 3)]
           {| full_text := "x<a>y<b>z"; buffer := "x<a>y<b>z";
              active_markers := []; calls := [] |}
           [("<c>", "</c>", None)] ("<b>", "</b>", Some 2) [("<a>", "</a>", Some 3)]).
  - reflexivity.
  - reflexivity.
  - repeat constructor.
  - reflexivity.
  - discriminate.
Defined.

(** The start-token that comes first in the list wins over the one that
    comes first in the buffer. *)
Example list_order_beats_buffer_order :
  process_text_stream ["x<a>y<b>z. "] true
    [("<b>", "</b>", Some 2); ("<a>", "</a>", Some 3)]
  = Ok ("x<a>y<b>z. ", [SentenceCall "z."]).
Proof. reflexivity. Qed.

(** ** A marked region followed by a sentence *)

(** C7.  On the one chunk ["<tag>secret</tag>rest of text."] with the
    marker [tag], the marker callback is called once, with ["secret"],
    then the sentence callback once, with ["rest of text."]; no call has
    a text that holds ["<tag>"] or ["</tag>"]. *)
Theorem marked_text_then_sentence :
  process_text_stream ["<tag>secret</tag>rest of text."] true [tag]
  = Ok ("<tag>secret</tag>rest of text.",
        [MarkerCall 1 "secret"; SentenceCall "rest of text."])
  /\ forallb (fun c => negb (contains "<tag>" (call_text c))
                       && negb (contains "</tag>" (call_text c)))
       (calls_of snd
          (process_text_stream ["<tag>secret</tag>rest of text."] true [tag]))
     = true.
Proof. split; reflexivity. Qed.

(** ** Sentence calls *)

Lemma sentence_ok_well_trimmed (c : call) : sentence_ok c -> well_trimmed_call c.
Proof.
  destruct c as [text|k text]; simpl; [|auto].
  intros [H1 H2]. split; [assumption|]. split; [assumption|].
  now apply strip_trimmed.
Qed.

(** C8.  In every run, whatever the chunks and the marker tuples, each
    call of the sentence callback, from the inner loop or from the final
    loop, has a text that is not empty, that [strip] leaves as it is, and
    that neither starts nor ends with whitespace.  This holds of the calls
    made before an exception as well. *)
Theorem sentence_calls_are_trimmed
    (text_stream : list string) (sentence_callback : bool)
    (marker_tuples : list marker) :
  Forall well_trimmed_call
    (calls_of snd (process_text_stream text_stream sentence_callback marker_tuples)).
Proof.
  eapply Forall_impl; [|apply process_text_stream_calls].
  apply sentence_ok_well_trimmed.
Qed.

(** ** Active markers *)

(** C9.  In every state of a run the list of active markers has at most
    one element, and a pass of the inner loop that starts with an active
    marker does not lengthen the list: a marker is opened only when the
    list is empty. *)
Theorem at_most_one_active_marker
    (sentence_callback : bool) (marker_tuples : list marker) (st : state) :
  reachable sentence_callback marker_tuples st ->
  List.length (active_markers st) <= 1
  /\ forall f st',
       active_markers st <> [] ->
       loop_body sentence_callback marker_tuples st = Ok (f, st') ->
       List.length (active_markers st') <= List.length (active_markers st).
Proof.
  intros R. split; [now destruct (reachable_invariant _ _ st R)|].
  intros f st' A L. apply loop_body_step in L.
  now apply (body_step_no_nesting sentence_callback marker_tuples st f st').
Qed.

Lemma at_most_one_active_marker_witness :
  let st := {| full_text := "<tag>partial"; buffer := "partial";
               active_markers := [tag]; calls := [] |} in
  List.length (active_markers st) <= 1
  /\ forall f st',
       active_markers st <> [] ->
       loop_body true [tag] st = Ok (f, st') ->
       List.length (active_markers st') <= List.length (active_markers st).
Proof.
  apply (at_most_one_active_marker true [tag]).
  apply (reach_body true [tag] (append_chunk "<tag>partial" initial) Continue);
    [apply reach_chunk, reach_initial | reflexivity | reflexivity].
Defined.

(** The states that [process_text_stream] passes through are reachable:
    the one after the stream loop and the one after the final loop. *)
Lemma process_text_stream_states_reachable
    (fuel : nat) (text_stream : list string) (sentence_callback : bool)
    (marker_tuples : list marker) (st st' : state) :
  stream_loop fuel sentence_callback marker_tuples text_stream initial = Ok st ->
  flush_loop fuel sentence_callback st = Ok st' ->
  reachable sentence_callback marker_tuples st
  /\ reachable sentence_callback marker_tuples st'.
Proof.
  intros Hs Hf.
  assert (R : reachable sentence_callback marker_tuples st)
    by (apply (stream_loop_reachable _ _ _ _ _ _ Hs); constructor).
  split; [assumption | now apply (flush_loop_reachable _ _ _ _ _ Hf)].
Qed.

(** ** Termination *)

(** C10.  With marker tuples whose tokens are non-empty the routine
    terminates and returns: there is one result that every amount of fuel
    from [enough_fuel] on gives.  Every pass of the inner loop that does
    not break leaves a strictly shorter buffer, and every pass of the
    final loop that does not break has popped one active marker. *)
Theorem process_text_stream_terminates
    (text_stream : list string) (sentence_callback : bool)
    (marker_tuples : list marker) :
  markers_wf marker_tuples ->
  (exists text log,
     forall fuel, enough_fuel text_stream <= fuel ->
       process_text_stream_fuel fuel text_stream sentence_callback marker_tuples
       = Ok (text, log))
  /\ (forall st st',
        loop_body sentence_callback marker_tuples st = Ok (Continue, st') ->
        String.length (buffer st') < String.length (buffer st))
  /\ (forall st st',
        flush_body sentence_callback st = (Continue, st') ->
        S (List.length (active_markers st')) = List.length (active_markers st)).
Proof.
  intros W. split; [|split].
  - destruct (process_text_stream_returns sentence_callback marker_tuples text_stream W)
      as [log E].
    exists (String.concat "" text_stream), log. intros fuel Hf.
    destruct (process_text_stream_fuel_enough sentence_callback marker_tuples
                text_stream fuel Hf) as [-> _].
    exact E.
  - intros st st' L.
    exact (body_step_progress _ _ _ _ _ (loop_body_step _ _ _ _ _ L)).
  - intros st st'. unfold flush_body.
    destruct (active_markers st) as [|a l]; intros H; [discriminate|].
    injection H as <-. reflexivity.
Qed.

Lemma process_text_stream_terminates_witness :
  exists text log,
    forall fuel, 31 <= fuel ->
      process_text_stream_fuel fuel ["<tag>secret</tag>"; "rest of text."] true [tag]
      = Ok (text, log).
Proof.
  assert (W : markers_wf [tag]) by (repeat constructor; discriminate).
  exact (proj1 (process_text_stream_terminates
                  ["<tag>secret</tag>"; "rest of text."] true [tag] W)).
Defined.

(** * Further properties of the routine *)

(** ** More on the string primitives *)

Lemma contains_suffix (sub a b : string) :
  contains sub b = true -> contains sub (a ++ b) = true.
Proof.
  intros H. induction a as [|c a IH]; [assumption|].
  cbn [append contains]. rewrite IH. apply orb_true_r.
Qed.

(** The text before the leftmost occurrence of a separator holds no
    occurrence of it. *)
Lemma split_first_before_free (sep s before rest : string) :
  sep <> "" -> split_first sep s = Some (before, rest) ->
  contains sep before = false.
Proof.
  intros Hne H. destruct (contains sep before) eqn:C; [|reflexivity].
  apply contains_split_first in C as [[a c] E].
  apply split_first_spec in E.
  assert (P : prefix sep ((sep ++ c) ++ sep ++ rest) = false).
  { apply (split_first_leftmost _ _ _ _ H a (sep ++ c) E).
    destruct sep; [congruence | discriminate]. }
  rewrite append_assoc, prefix_append in P. discriminate.
Qed.

Lemma occurs_in_refl (s : string) : occurs_in s s.
Proof. exists "", "". simpl. now rewrite append_nil_r. Qed.

Lemma occurs_in_trans (t s u : string) :
  occurs_in t s -> occurs_in s u -> occurs_in t u.
Proof.
  intros (a & b & ->) (a' & b' & ->). exists (a' ++ a), (b ++ b').
  now rewrite !append_assoc.
Qed.

Lemma occurs_in_append (t a s b : string) :
  occurs_in t s -> occurs_in t (a ++ s ++ b).
Proof. intros H. apply (occurs_in_trans _ _ _ H). now exists a, b. Qed.

Lemma lstrip_suffix (s : string) : exists a, s = a ++ lstrip s.
Proof.
  induction s as [|c s [a IH]]; [now exists ""|].
  simpl. destruct (isspace c).
  - exists (String c a). simpl. now rewrite <- IH.
  - now exists "".
Qed.

Lemma rstrip_prefix (s : string) : exists b, s = rstrip s ++ b.
Proof.
  induction s as [|c s [b IH]]; [now exists ""|].
  cbn [rstrip]. destruct (rstrip s) as [|d r] eqn:E.
  - destruct (isspace c).
    + now exists (String c s).
    + exists b. simpl. f_equal. exact IH.
  - exists b. simpl. f_equal. exact IH.
Qed.

(** What [strip] returns occurs in its argument. *)
Lemma strip_occurs (s : string) : occurs_in (strip s) s.
Proof.
  unfold strip. destruct (lstrip_suffix s) as [a Ha].
  destruct (rstrip_prefix (lstrip s)) as [b Hb].
  exists a, b. now rewrite <- Hb.
Qed.

(** A string that ends with a character, cut anywhere before its end,
    leaves a rest that ends with that character. *)
Lemma last_character_of_rest (run : string) (t : ascii) :
  forall p rest,
  run ++ String t "" = p ++ rest -> rest <> "" ->
  exists run', rest = run' ++ String t "".
Proof.
  induction run as [|c run IH]; intros [|d p] rest H Hne; simpl in H.
  - now exists "".
  - injection H as _ H. destruct p, rest; simpl in H; congruence.
  - exists (String c run). now rewrite <- H.
  - injection H as _ H. now apply (IH p rest).
Qed.

(** ** What a pass adds to the log and takes from the buffer *)

Lemma scan_active_markers_split (ms : list marker) :
  forall (i : Z) (st : state) (j : Z) (st' : state),
  scan_active_markers i ms st = Ok (j, st') ->
  (j = (-1)%Z /\ st' = st)
  \/ exists m marked_text rest,
       In m ms /\ marker_end m <> ""
       /\ split_first (marker_end m) (buffer st) = Some (marked_text, rest)
       /\ truthy (strip marked_text) = true
       /\ st' = set_buffer rest (invoke_marker (marker_callback m) marked_text st).
Proof.
  induction ms as [|[[start end_] callback] ms IH]; intros i st j st' H.
  - injection H as <- <-. auto.
  - cbn [scan_active_markers] in H.
    assert (Hnext : scan_active_markers (i + 1) ms st = Ok (j, st') ->
                    (j = (-1)%Z /\ st' = st)
                    \/ exists m marked_text rest,
                         In m ((start, end_, callback) :: ms)
                         /\ marker_end m <> ""
                         /\ split_first (marker_end m) (buffer st)
                            = Some (marked_text, rest)
                         /\ truthy (strip marked_text) = true
                         /\ st' = set_buffer rest
                                    (invoke_marker (marker_callback m) marked_text st)).
    { intros E. apply IH in E as [?|(m & t & r & I & R)]; [auto|].
      right. exists m, t, r. split; [now right | exact R]. }
    destruct (contains end_ (buffer st)) eqn:C; [|auto].
    destruct (partition end_ (buffer st)) as [[[marked_text sep] rest]|] eqn:P;
      [|discriminate].
    destruct (truthy (strip marked_text)) eqn:T; [|auto].
    injection H as <- <-. right.
    destruct (partition_some _ _ _ _ _ P C) as (Hne & _ & _).
    destruct (partition_found _ _ Hne C) as (b & r & P' & Sp & _).
    rewrite P in P'. injection P' as <- _ <-.
    exists (start, end_, callback), marked_text, rest. simpl. auto 6.
Qed.

(** The calls of one pass: none, or one marker call with the text before
    the leftmost end-token of an active marker, or one sentence call with
    the stripped match of the pattern. *)
Lemma loop_body_calls (sentence_callback : bool) (marker_tuples : list marker)
    (st : state) (f : flow) (st' : state) :
  loop_body sentence_callback marker_tuples st = Ok (f, st') ->
  calls st' = calls st
  \/ (exists k m marked_text rest,
        In m (active_markers st) /\ marker_callback m = Some k
        /\ marker_end m <> ""
        /\ split_first (marker_end m) (buffer st) = Some (marked_text, rest)
        /\ truthy (strip marked_text) = true
        /\ calls st' = (calls st ++ [MarkerCall k marked_text])%list)
  \/ (exists p,
        sentence_callback = true
        /\ sentence_pattern_match (buffer st) = Some p
        /\ truthy (strip p) = true
        /\ calls st' = (calls st ++ [SentenceCall (strip p)])%list).
Proof.
  unfold loop_body. destruct (active_markers st) as [|a l] eqn:A.
  - unfold process_new_markers_or_sentences.
    destruct (scan_marker_tuples marker_tuples st) as [[st1|]| |] eqn:Sc;
      try discriminate.
    + intros H; injection H as <- <-.
      apply scan_marker_tuples_some in Sc as (m & b & r & _ & _ & _ & ->).
      now left.
    + unfold process_sentence.
      destruct (sentence_pattern_match (buffer st)) as [p|] eqn:M;
        intros H; injection H as <- <-; [|now left].
      cbn [calls set_buffer]. unfold emit_sentence.
      destruct sentence_callback; simpl; [|now left].
      destruct (truthy (strip p)) eqn:T; [|now left].
      right; right. exists p. auto.
  - unfold process_active_markers. rewrite A.
    destruct (scan_active_markers 0 (a :: l) st) as [[j st1]| |] eqn:Sc;
      try discriminate.
    assert (C : calls st1 = calls st
                \/ exists k m marked_text rest,
                     In m (a :: l) /\ marker_callback m = Some k
                     /\ marker_end m <> ""
                     /\ split_first (marker_end m) (buffer st)
                        = Some (marked_text, rest)
                     /\ truthy (strip marked_text) = true
                     /\ calls st1 = (calls st ++ [MarkerCall k marked_text])%list).
    { apply scan_active_markers_split in Sc
        as [[_ ->] | (m & t & r & I & Hne & Sp & T & ->)]; [now left|].
      cbn [calls set_buffer]. destruct (marker_callback m) as [k|] eqn:K;
        [|now left].
      right. exists k, m, t, r. auto 7. }
    destruct (0 <=? j)%Z.
    + destruct (pop (Z.to_nat j) (active_markers st1)); [|discriminate].
      intros H; injection H as <- <-. cbn [calls set_active_markers].
      destruct C as [C|C]; auto.
    + intros H; injection H as <- <-. destruct C as [C|C]; auto.
Qed.

(** What a pass leaves in the buffer is the end of what it found there. *)
Lemma body_step_suffix (sentence_callback : bool) (marker_tuples : list marker)
    (st : state) (f : flow) (st' : state) :
  body_step sentence_callback marker_tuples st f st' ->
  exists gone, buffer st = gone ++ buffer st'.
Proof.
  intros [st0 k m l t r N P Hne Hb T | st0 A | st0 m b r A I Hne Hb
         | st0 sentence A M | st0 A]; try (now exists "").
  - exists (t ++ marker_end m).
    cbn [buffer set_active_markers set_buffer]. now rewrite append_assoc.
  - exists (b ++ marker_start m).
    cbn [buffer set_active_markers set_buffer]. now rewrite append_assoc.
  - exists sentence. cbn [buffer set_buffer].
    now apply sentence_pattern_match_split in M as [_ Hb].
Qed.

(** ** The log of a run *)

Section Logs.

Variable sentence_callback : bool.
Variable marker_tuples : list marker.

Local Abbreviation reach := (reachable sentence_callback marker_tuples).
Local Abbreviation run_of text_stream :=
  (process_text_stream text_stream sentence_callback marker_tuples).

Lemma stream_loop_raise_text (fuel : nat) (text_stream : list string) :
  forall st e log,
  stream_loop fuel sentence_callback marker_tuples text_stream st = Raise e log ->
  reach st ->
  exists st1 later,
    reach st1
    /\ loop_body sentence_callback marker_tuples st1 = Raise e log
    /\ full_text st ++ String.concat "" text_stream = full_text st1 ++ later.
Proof.
  induction text_stream as [|chunk text_stream IH]; intros st e log;
    cbn [stream_loop]; [discriminate|].
  destruct (consume_loop fuel sentence_callback marker_tuples
              (append_chunk chunk st)) as [st1| |] eqn:C; try discriminate.
  - intros H R. apply consume_loop_passes in C.
    destruct (IH _ _ _ H) as (st2 & later & R2 & L & T).
    + apply (passes_reachable _ _ _ _ C). now constructor.
    + exists st2, later. repeat split; try assumption.
      apply passes_full_text in C. rewrite <- T, C, concat_cons. simpl.
      now rewrite append_assoc.
  - intros H R; injection H as <- <-.
    apply consume_loop_raise in C as (st1 & P & L).
    exists st1, (String.concat "" text_stream). repeat split; try assumption.
    + apply (passes_reachable _ _ _ _ P). now constructor.
    + apply passes_full_text in P. rewrite P, concat_cons. simpl.
      now rewrite append_assoc.
Qed.

(** The log of a run is the log of a reachable state whose [full_text]
    starts the joined chunks. *)
Lemma run_log_state (text_stream : list string) :
  exists st later,
    reach st
    /\ calls_of snd (run_of text_stream) = calls st
    /\ String.concat "" text_stream = full_text st ++ later.
Proof.
  destruct (process_text_stream_fuel_enough sentence_callback marker_tuples
              text_stream (enough_fuel text_stream)) as [_ N]; [lia|].
  unfold process_text_stream, process_text_stream_fuel in *.
  destruct (stream_loop (enough_fuel text_stream) sentence_callback marker_tuples
              text_stream initial) as [st|e log|] eqn:Sl; [| |congruence].
  - pose proof (flush_loop_raise sentence_callback (enough_fuel text_stream) st) as NR.
    destruct (flush_loop (enough_fuel text_stream) sentence_callback st)
      as [st'|e log|] eqn:F; [| exfalso; exact (NR _ _ eq_refl) | congruence].
    exists st', "". split.
    + apply (flush_loop_reachable _ _ _ _ _ F).
      apply (stream_loop_reachable _ _ _ _ _ _ Sl). constructor.
    + split; [reflexivity|]. rewrite append_nil_r. symmetry.
      apply (process_text_stream_text sentence_callback marker_tuples
               text_stream (full_text st') (calls st')).
      unfold process_text_stream, process_text_stream_fuel. now rewrite Sl, F.
  - apply stream_loop_raise_text in Sl as (st1 & later & R & L & T);
      [|constructor].
    exists st1, later. split; [assumption|]. split; [|exact T].
    simpl. now apply loop_body_raise in L as (_ & -> & _).
Qed.

(** Every marker call of a reachable state is in order. *)
Lemma reachable_marker_calls (st : state) :
  reach st -> Forall (marker_call_ok marker_tuples) (calls st).
Proof.
  induction 1 as [| chunk st R IH | st f st' R IH B L | st f st' R IH B F].
  - constructor.
  - exact IH.
  - destruct (reachable_invariant _ _ _ R) as [_ Reg _].
    destruct (loop_body_calls _ _ _ _ _ L)
      as [-> | [(k & m & t & r & I & K & Hne & Sp & T & ->) | (p & _ & _ & _ & ->)]].
    + exact IH.
    + apply Forall_app. split; [exact IH|]. constructor; [|constructor].
      simpl. split; [exact T|]. exists m. rewrite Forall_forall in Reg.
      split; [now apply Reg|]. split; [exact K|].
      now apply (split_first_before_free _ _ _ _ Hne Sp).
    + apply Forall_app. split; [exact IH | repeat constructor].
  - unfold flush_body in F. destruct (active_markers st) as [|a l];
      injection F as <- <-; [|exact IH].
    rewrite calls_emit_sentence. apply Forall_app. split; [exact IH|].
    unfold sentence_calls. destruct (_ && _); repeat constructor.
Qed.

(** Without a sentence callback no state has a sentence call, and with
    marker tuples without callbacks no state has a marker call. *)
Lemma reachable_silent (st : state) :
  reach st ->
  (sentence_callback = false -> sentence_calls_of (calls st) = [])
  /\ (Forall (fun m => marker_callback m = None) marker_tuples ->
      marker_calls (calls st) = []).
Proof.
  induction 1 as [| chunk st R IH | st f st' R [IHs IHm] B L | st f st' R [IHs IHm] B F].
  - split; reflexivity.
  - exact IH.
  - destruct (reachable_invariant _ _ _ R) as [_ Reg _].
    destruct (loop_body_calls _ _ _ _ _ L)
      as [-> | [(k & m & t & r & I & K & _ & _ & _ & ->) | (p & Sc & _ & _ & ->)]].
    + now split.
    + split.
      * intros Hs. unfold sentence_calls_of. rewrite filter_app. simpl.
        rewrite app_nil_r. now apply IHs.
      * intros Hm. exfalso. rewrite Forall_forall in Reg, Hm.
        apply Reg, Hm in I. congruence.
    + split; [congruence|].
      intros Hm. unfold marker_calls. rewrite filter_app. simpl.
      rewrite app_nil_r. now apply IHm.
  - unfold flush_body in F. destruct (active_markers st) as [|a l];
      injection F as <- <-; [|now split].
    rewrite calls_emit_sentence. unfold sentence_calls. split.
    + intros ->. simpl. rewrite app_nil_r. now apply IHs.
    + intros Hm. unfold marker_calls. rewrite filter_app.
      destruct (_ && _); simpl; rewrite app_nil_r; now apply IHm.
Qed.

End Logs.

(** ** Exceptions of the routine *)

(** X1.  A run of the routine ends in one of two ways: it returns, or
    [partition] raises [ValueError] on the empty start- or end-token of a
    marker tuple.  No other exception comes from the routine itself, and
    no loop of it runs forever. *)
Theorem routine_returns_or_raises_value_error
    (text_stream : list string) (sentence_callback : bool)
    (marker_tuples : list marker) :
  (exists text log,
     process_text_stream text_stream sentence_callback marker_tuples = Ok (text, log))
  \/ (exists log m,
        process_text_stream text_stream sentence_callback marker_tuples
        = Raise ValueError log
        /\ In m marker_tuples /\ (marker_start m = "" \/ marker_end m = "")).
Proof.
  destruct (process_text_stream_fuel_enough sentence_callback marker_tuples
              text_stream (enough_fuel text_stream)) as [_ N]; [lia|].
  unfold process_text_stream, process_text_stream_fuel in *.
  destruct (stream_loop (enough_fuel text_stream) sentence_callback marker_tuples
              text_stream initial) as [st|e log|] eqn:Sl; [| |congruence].
  - pose proof (flush_loop_raise sentence_callback (enough_fuel text_stream) st) as NR.
    destruct (flush_loop (enough_fuel text_stream) sentence_callback st)
      as [st'|e log|]; [| exfalso; exact (NR _ _ eq_refl) | congruence].
    left. eauto.
  - right. apply stream_loop_raise in Sl as (st1 & R & L); [|constructor].
    destruct (reachable_invariant _ _ _ R) as [_ Reg _].
    apply loop_body_raise in L as (-> & -> & m & [[I E] | [I E]]).
    + exists (calls st1), m. rewrite Forall_forall in Reg. auto.
    + exists (calls st1), m. auto.
Qed.

(** X2.  When the first chunk is not empty and the first marker tuple, in
    list order, whose start-token is in that chunk has the empty
    start-token (which is in every string), the run raises [ValueError]
    before any callback is called, whatever chunks follow. *)
Theorem empty_start_token_raises
    (chunk : string) (text_stream : list string) (sentence_callback : bool)
    (skipped : list marker) (m : marker) (later : list marker) :
  chunk <> "" ->
  Forall (fun x => contains (marker_start x) chunk = false) skipped ->
  marker_start m = "" ->
  process_text_stream (chunk :: text_stream) sentence_callback
    (skipped ++ m :: later)%list
  = Raise ValueError [].
Proof.
  intros Hne Hs Hm.
  unfold process_text_stream, process_text_stream_fuel, enough_fuel.
  cbn [stream_loop consume_loop].
  assert (B : buffer (append_chunk chunk initial) = chunk) by reflexivity.
  rewrite B. apply truthy_true in Hne. rewrite Hne.
  unfold loop_body, process_new_markers_or_sentences. cbn [active_markers append_chunk initial].
  rewrite (scan_marker_tuples_first skipped m later (append_chunk chunk initial)).
  - rewrite Hm. reflexivity.
  - exact Hs.
  - rewrite Hm. apply contains_empty.
Qed.

Lemma empty_start_token_raises_witness :
  process_text_stream ["Hello. "; "Bye."] true ([tag] ++ ("", "]", Some 2) :: [])%list
  = Raise ValueError [].
Proof.
  apply (empty_start_token_raises "Hello. " ["Bye."] true [tag] ("", "]", Some 2) []).
  - discriminate.
  - repeat constructor.
  - reflexivity.
Defined.

(** ** What the callbacks receive *)

(** X3.  Every call of a marker callback, in every run, has a text that
    is not blank and in which the end-token of its marker tuple does not
    occur; the callback is the one of a tuple of [marker_tuples]. *)
Theorem marker_calls_are_in_order
    (text_stream : list string) (sentence_callback : bool)
    (marker_tuples : list marker) :
  Forall (marker_call_ok marker_tuples)
    (calls_of snd (process_text_stream text_stream sentence_callback marker_tuples)).
Proof.
  destruct (run_log_state sentence_callback marker_tuples text_stream)
    as (st & later & R & -> & _).
  exact (reachable_marker_calls _ _ _ R).
Qed.

(** X7.  A run without a sentence callback makes no sentence call, and a
    run whose marker tuples all have [None] for callback makes no marker
    call; without any callback the log is empty. *)
Theorem no_callback_no_call
    (text_stream : list string) (sentence_callback : bool)
    (marker_tuples : list marker) :
  (sentence_callback = false ->
   sentence_calls_of
     (calls_of snd (process_text_stream text_stream sentence_callback marker_tuples))
   = [])
  /\ (Forall (fun m => marker_callback m = None) marker_tuples ->
      marker_calls
        (calls_of snd (process_text_stream text_stream sentence_callback marker_tuples))
      = []).
Proof.
  destruct (run_log_state sentence_callback marker_tuples text_stream)
    as (st & later & R & -> & _).
  exact (reachable_silent _ _ _ R).
Qed.

Lemma no_callback_no_call_witness :
  sentence_calls_of
    (calls_of snd (process_text_stream ["<tag>a</tag>"; "One. Two."] false
                     [("<tag>", "</tag>", None)]))
  = []
  /\ marker_calls
       (calls_of snd (process_text_stream ["<tag>a</tag>"; "One. Two."] false
                        [("<tag>", "</tag>", None)]))
     = [].
Proof.
  destruct (no_callback_no_call ["<tag>a</tag>"; "One. Two."] false
              [("<tag>", "</tag>", None)]) as [Hs Hm].
  split; [apply Hs; reflexivity | apply Hm; repeat constructor].
Defined.

(** ** Chunks that follow do not change what was called *)

Lemma concat_app (l1 l2 : list string) :
  String.concat "" (l1 ++ l2)%list = String.concat "" l1 ++ String.concat "" l2.
Proof.
  induction l1 as [|c l1 IH]; [reflexivity|].
  change ((c :: l1) ++ l2)%list with (c :: (l1 ++ l2)%list).
  now rewrite !concat_cons, IH, append_assoc.
Qed.

Lemma stream_loop_app (fuel : nat) (sentence_callback : bool)
    (marker_tuples : list marker) (l1 l2 : list string) :
  forall st,
  stream_loop fuel sentence_callback marker_tuples (l1 ++ l2)%list st
  = match stream_loop fuel sentence_callback marker_tuples l1 st with
    | Ok st1 => stream_loop fuel sentence_callback marker_tuples l2 st1
    | Raise e log => Raise e log
    | Timeout => Timeout
    end.
Proof.
  induction l1 as [|c l1 IH]; intros st; [reflexivity|].
  cbn [app stream_loop].
  destruct (consume_loop fuel sentence_callback marker_tuples (append_chunk c st));
    [apply IH | reflexivity | reflexivity].
Qed.

Lemma passes_calls_grow (sentence_callback : bool) (marker_tuples : list marker)
    (st st' : state) :
  passes sentence_callback marker_tuples st st' ->
  exists more, calls st' = (calls st ++ more)%list.
Proof.
  induction 1 as [st | st f st1 st2 B L P [more IH]].
  - exists []. now rewrite app_nil_r.
  - destruct (loop_body_calls _ _ _ _ _ L)
      as [E | [(k & m & t & r & _ & _ & _ & _ & _ & E) | (p & _ & _ & _ & E)]];
      rewrite IH, E; eexists; rewrite <- ?app_assoc; reflexivity.
Qed.

Lemma stream_loop_calls_grow (fuel : nat) (sentence_callback : bool)
    (marker_tuples : list marker) (text_stream : list string) :
  forall st,
  stream_loop fuel sentence_callback marker_tuples text_stream st <> Timeout ->
  exists more,
    calls_of calls (stream_loop fuel sentence_callback marker_tuples text_stream st)
    = (calls st ++ more)%list.
Proof.
  induction text_stream as [|chunk text_stream IH]; intros st; cbn [stream_loop].
  - intros _. exists []. simpl. now rewrite app_nil_r.
  - destruct (consume_loop fuel sentence_callback marker_tuples
                (append_chunk chunk st)) as [st1|e log|] eqn:C; [| |congruence].
    + intros N. destruct (IH st1 N) as [more E].
      apply consume_loop_passes, passes_calls_grow in C as [more1 E1].
      rewrite E, E1. simpl. eexists. rewrite <- app_assoc. reflexivity.
    + intros _. apply consume_loop_raise in C as (st1 & P & L).
      apply loop_body_raise in L as (_ & -> & _).
      apply passes_calls_grow in P as [more E]. exists more. exact E.
Qed.

(** X5.  The calls made while the first chunks are consumed do not depend
    on the chunks that follow: they start the log of every run on a
    longer stream.  The run on the first chunks alone makes the same
    calls and at most one more, the sentence call of the final loop. *)
Theorem streamed_calls_stand
    (l1 l2 : list string) (sentence_callback : bool) (marker_tuples : list marker) :
  (exists last,
     calls_of snd (process_text_stream l1 sentence_callback marker_tuples)
     = (streamed_calls l1 sentence_callback marker_tuples ++ last)%list
     /\ List.length last <= 1)
  /\ (exists more,
        calls_of snd (process_text_stream (l1 ++ l2)%list sentence_callback marker_tuples)
        = (streamed_calls l1 sentence_callback marker_tuples ++ more)%list).
Proof.
  unfold streamed_calls. split.
  - destruct (stream_loop (enough_fuel l1) sentence_callback marker_tuples l1 initial)
      as [st|e log|] eqn:Sl.
    + apply process_text_stream_flush in Sl as [_ ->]. simpl.
      exists (sentence_calls sentence_callback (buffer st)). split; [reflexivity|].
      unfold sentence_calls. destruct (_ && _); simpl; lia.
    + unfold process_text_stream, process_text_stream_fuel. rewrite Sl. simpl.
      exists []. rewrite app_nil_r. simpl. auto.
    + unfold process_text_stream, process_text_stream_fuel. rewrite Sl. simpl.
      exists []. simpl. auto.
  - assert (Len : String.length (String.concat "" l1)
                  <= String.length (String.concat "" (l1 ++ l2)%list))
      by (rewrite concat_app, length_append; lia).
    destruct (stream_loop_fuel sentence_callback marker_tuples l1
                (enough_fuel l1) (enough_fuel (l1 ++ l2)%list) initial)
      as (E & N1 & _); [unfold enough_fuel; simpl; lia
                       | unfold enough_fuel; simpl; lia |].
    rewrite E in *.
    destruct (process_text_stream_fuel_enough sentence_callback marker_tuples
                (l1 ++ l2)%list (enough_fuel (l1 ++ l2)%list)) as [_ N]; [lia|].
    destruct (stream_loop (enough_fuel (l1 ++ l2)%list) sentence_callback marker_tuples
                (l1 ++ l2)%list initial) as [st2|e log|] eqn:Sl.
    + pose proof (process_text_stream_flush _ _ _ _ Sl) as [_ ->]. simpl.
      rewrite stream_loop_app in Sl.
      destruct (stream_loop (enough_fuel (l1 ++ l2)%list) sentence_callback
                  marker_tuples l1 initial) as [st1|e log|] eqn:S1;
        try discriminate.
      destruct (stream_loop_calls_grow (enough_fuel (l1 ++ l2)%list)
                  sentence_callback marker_tuples l2 st1) as [more Em];
        [congruence|].
      rewrite Sl in Em. simpl in Em. simpl. rewrite Em.
      eexists. rewrite <- app_assoc. reflexivity.
    + unfold process_text_stream, process_text_stream_fuel. rewrite Sl. simpl.
      rewrite stream_loop_app in Sl.
      destruct (stream_loop (enough_fuel (l1 ++ l2)%list) sentence_callback
                  marker_tuples l1 initial) as [st1|e1 log1|] eqn:S1.
      * destruct (stream_loop_calls_grow (enough_fuel (l1 ++ l2)%list)
                    sentence_callback marker_tuples l2 st1) as [more Em];
          [congruence|].
        rewrite Sl in Em. simpl in Em. simpl. now exists more.
      * injection Sl as <- <-. simpl. exists []. now rewrite app_nil_r.
      * discriminate.
    + exfalso. apply N. unfold process_text_stream, process_text_stream_fuel.
      now rewrite Sl.
Qed.

(** ** A terminator at the end of the buffer *)

Lemma terminated_buffer_is_consumed (sentence_callback : bool)
    (marker_tuples : list marker) (t : ascii) (fuel : nat) :
  is_terminator t = true ->
  forall st,
  active_markers st = [] ->
  (buffer st = "" \/ exists run, buffer st = run ++ String t "") ->
  Forall (fun m => contains (marker_start m) (buffer st) = false) marker_tuples ->
  String.length (buffer st) < fuel ->
  exists st',
    consume_loop fuel sentence_callback marker_tuples st = Ok st'
    /\ buffer st' = "" /\ active_markers st' = []
    /\ full_text st' = full_text st.
Proof.
  intros Ht. induction fuel as [|fuel IH]; intros st A Hb Hm Hf; [lia|].
  cbn [consume_loop]. destruct (truthy (buffer st)) eqn:B.
  - destruct Hb as [Hb | [run Hb]]; [rewrite Hb in B; discriminate|].
    assert (P : sentence_prefix (buffer st) (buffer st))
      by (rewrite Hb; now constructor).
    destruct (sentence_pattern_match (buffer st)) as [p|] eqn:M.
    2:{ exfalso. unfold sentence_pattern_match in M.
        destruct (lazy_terminator (buffer st)) eqn:L; [discriminate|].
        exact (lazy_terminator_none _ L _ P). }
    assert (L : loop_body sentence_callback marker_tuples st
                = Ok (Continue,
                      set_buffer (drop (String.length p) (buffer st))
                        (emit_sentence sentence_callback p st))).
    { unfold loop_body, process_new_markers_or_sentences, process_sentence.
      apply scan_marker_tuples_none in Hm. now rewrite A, Hm, M. }
    rewrite L. apply sentence_pattern_match_split in M as [Hne Hp].
    set (rest := drop (String.length p) (buffer st)) in *.
    destruct (IH (set_buffer rest (emit_sentence sentence_callback p st)))
      as (st' & C & E & A' & T).
    + cbn [active_markers set_buffer]. now rewrite active_markers_emit_sentence.
    + cbn [buffer set_buffer]. destruct rest as [|c rest'] eqn:R; [now left|].
      right. apply (last_character_of_rest run t p (String c rest'));
        [congruence | discriminate].
    + cbn [buffer set_buffer]. eapply Forall_impl; [|exact Hm].
      intros m Hc. simpl in Hc. destruct (contains (marker_start m) rest) eqn:Cr;
        [|reflexivity].
      rewrite Hp in Hc. now rewrite (contains_suffix _ p rest Cr) in Hc.
    + cbn [buffer set_buffer]. rewrite Hp, length_append in Hf.
      destruct p; [congruence | simpl in Hf; lia].
    + exists st'. repeat split; try assumption.
      rewrite T. simpl. apply full_text_emit_sentence.
  - exists st. apply truthy_false in B. auto.
Qed.

(** X6.  When no marker is active, no start-token is in the buffer and
    the buffer ends with ['.'], ['!'] or ['?'], the inner loop hands out
    all of it: it ends with an empty buffer, so that no text waits for the
    next chunk. *)
Theorem terminator_empties_buffer
    (sentence_callback : bool) (marker_tuples : list marker) (st : state)
    (run : string) (t : ascii) (fuel : nat) :
  active_markers st = [] ->
  buffer st = run ++ String t "" ->
  is_terminator t = true ->
  Forall (fun m => contains (marker_start m) (buffer st) = false) marker_tuples ->
  String.length (buffer st) < fuel ->
  exists st',
    consume_loop fuel sentence_callback marker_tuples st = Ok st'
    /\ buffer st' = "" /\ active_markers st' = []
    /\ full_text st' = full_text st.
Proof.
  intros A Hb Ht Hm Hf.
  apply (terminated_buffer_is_consumed _ _ t fuel Ht st A); eauto.
Qed.

Lemma terminator_empties_buffer_witness :
  exists st',
    consume_loop 20 true [tag]
      {| full_text := "One. Two! Three?"; buffer := "One. Two! Three?";
         active_markers := []; calls := [] |} = Ok st'
    /\ buffer st' = "" /\ active_markers st' = []
    /\ full_text st' = "One. Two! Three?".
Proof.
  apply (terminator_empties_buffer true [tag]
           {| full_text := "One. Two! Three?"; buffer := "One. Two! Three?";
              active_markers := []; calls := [] |}
           "One. Two! Three" "?"%char 20).
  - reflexivity.
  - reflexivity.
  - reflexivity.
  - repeat constructor.
  - simpl. lia.
Defined.

(** ** The completion methods *)

Lemma fold_left_append (l : list string) :
  forall acc : string,
  fold_left (fun full_response chunk => full_response ++ chunk) l acc
  = acc ++ String.concat "" l.
Proof.
  induction l as [|c l IH]; intros acc.
  - simpl. now rewrite append_nil_r.
  - cbn [fold_left]. now rewrite IH, concat_cons, append_assoc.
Qed.

Lemma stream_loop_wf (text_stream : list string) (sentence_callback : bool)
    (marker_tuples : list marker) :
  markers_wf marker_tuples ->
  exists st,
    stream_loop (enough_fuel text_stream) sentence_callback marker_tuples
      text_stream initial = Ok st.
Proof.
  intros W.
  destruct (process_text_stream_returns sentence_callback marker_tuples
              text_stream W) as [log E].
  unfold process_text_stream, process_text_stream_fuel in E.
  destruct (stream_loop (enough_fuel text_stream) sentence_callback marker_tuples
              text_stream initial) as [st| |]; [eauto | discriminate | discriminate].
Qed.

Section CompletionFacts.

Variables Messages Model Kwargs Limit : Type.
Variable stream_completion : Messages -> Model -> Kwargs -> answer.
Variable maintain_token_limit : Messages -> Limit -> Messages + raised.
Variable MAX_TOKENS : Limit.

(** X8.  When the client's stream ends without an exception,
    [get_completion] prints nothing and returns the chunks joined in
    order, which is the text that [process_text_stream] returns when it
    consumes the same stream (with marker tuples of non-empty tokens). *)
Theorem get_completion_returns_full_text
    (verbose : bool) (messages : Messages) (model : Model) (kwargs : Kwargs)
    (s : chunk_stream) (sentence_callback : bool) (marker_tuples : list marker) :
  stream_completion messages model kwargs = Stream s ->
  failure s = None ->
  markers_wf marker_tuples ->
  get_completion Messages Model Kwargs stream_completion verbose messages model kwargs
  = Return (Some (String.concat "" (chunks s))) []
  /\ exists log,
       process_text_stream_on s sentence_callback marker_tuples
       = Finished (Ok (String.concat "" (chunks s), log)).
Proof.
  intros Hs Hf W. split.
  - unfold get_completion. rewrite Hs, Hf. cbv zeta.
    now rewrite fold_left_append.
  - unfold process_text_stream_on. rewrite Hf.
    destruct (stream_loop_wf (chunks s) sentence_callback marker_tuples W)
      as [st ->].
    destruct (process_text_stream_returns sentence_callback marker_tuples
                (chunks s) W) as [log ->].
    now exists log.
Qed.

(** X9.  When the client's stream raises an [Exception] after its chunks,
    [get_completion] catches it: it returns [None], drops the chunks
    received and prints one diagnostic (the traceback if verbose, else the
    message with the exception's text).  [get_completion_stream] returns
    the same stream without printing, so that the exception is raised in
    the consumer: [process_text_stream] makes the calls of the chunks
    received, does not reach its final loop, and lets the exception
    through. *)
Theorem failing_stream_is_caught_by_get_completion_only
    (verbose : bool) (messages messages' : Messages) (model : Model)
    (kwargs : Kwargs) (s : chunk_stream) (text : string)
    (sentence_callback : bool) (marker_tuples : list marker) :
  failure s = Some (AnException text) ->
  stream_completion messages model kwargs = Stream s ->
  maintain_token_limit messages MAX_TOKENS = inl messages' ->
  stream_completion messages' model kwargs = Stream s ->
  markers_wf marker_tuples ->
  get_completion Messages Model Kwargs stream_completion verbose messages model kwargs
  = Return None
      [if verbose then PrintExc (AnException text)
       else Print ("An error occurred while getting completion: " ++ text)]
  /\ get_completion_stream Messages Model Kwargs Limit stream_completion
       maintain_token_limit MAX_TOKENS verbose messages model kwargs
     = Return (Some s) []
  /\ process_text_stream_on s sentence_callback marker_tuples
     = Interrupted (AnException text)
         (streamed_calls (chunks s) sentence_callback marker_tuples).
Proof.
  intros Hf Hs Hm Hs' W. repeat split.
  - unfold get_completion. now rewrite Hs, Hf.
  - unfold get_completion_stream. now rewrite Hm, Hs'.
  - unfold process_text_stream_on, streamed_calls.
    destruct (stream_loop_wf (chunks s) sentence_callback marker_tuples W)
      as [st ->].
    now rewrite Hf.
Qed.

(** X10.  Neither method lets an [Exception] of a collaborator through:
    whatever [stream_completion] and [maintain_token_limit] do, a method
    that propagates an exception propagates one that is not an
    [Exception] and has printed nothing; a method that returns [None] has
    printed exactly one diagnostic, and one that returns a value has
    printed nothing. *)
Theorem completion_methods_catch_exceptions
    (verbose : bool) (messages : Messages) (model : Model) (kwargs : Kwargs) :
  handled verbose
    (get_completion Messages Model Kwargs stream_completion
       verbose messages model kwargs)
  /\ handled verbose
       (get_completion_stream Messages Model Kwargs Limit stream_completion
          maintain_token_limit MAX_TOKENS verbose messages model kwargs).
Proof.
  unfold get_completion, get_completion_stream, on_exception. split.
  - destruct (stream_completion messages model kwargs) as [s|[t|t]];
      [destruct (failure s) as [[t|t]|]| |]; destruct verbose; simpl; auto.
  - destruct (maintain_token_limit messages MAX_TOKENS) as [m|[t|t]];
      [destruct (stream_completion m model kwargs) as [s|[t|t]]| |];
      destruct verbose; simpl; auto.
Qed.

End CompletionFacts.

Lemma get_completion_returns_full_text_witness :
  get_completion (list string) string unit
    (fun _ _ _ => Stream {| chunks := ["Hel"; "lo. "; "Bye"]; failure := None |})
    false ["Say hello"] "model" tt
  = Return (Some "Hello. Bye") []
  /\ exists log,
       process_text_stream_on {| chunks := ["Hel"; "lo. "; "Bye"]; failure := None |}
         true [tag]
       = Finished (Ok ("Hello. Bye", log)).
Proof.
  apply (get_completion_returns_full_text (list string) string unit
           (fun _ _ _ => Stream {| chunks := ["Hel"; "lo. "; "Bye"]; failure := None |})
           false ["Say hello"] "model" tt
           {| chunks := ["Hel"; "lo. "; "Bye"]; failure := None |} true [tag]).
  - reflexivity.
  - reflexivity.
  - repeat constructor; discriminate.
Defined.

Lemma failing_stream_is_caught_by_get_completion_only_witness :
  let s := {| chunks := ["One. Tw"; "o"]; failure := Some (AnException "timed out") |} in
  get_completion (list string) string unit (fun _ _ _ => Stream s)
    false ["Count"] "model" tt
  = Return None [Print "An error occurred while getting completion: timed out"]
  /\ get_completion_stream (list string) string unit nat (fun _ _ _ => Stream s)
       (fun messages limit => inl (firstn limit messages)) 8
       false ["Count"] "model" tt
     = Return (Some s) []
  /\ process_text_stream_on s true [tag]
     = Interrupted (AnException "timed out") [SentenceCall "One."].
Proof.
  assert (W : markers_wf [tag]) by (repeat constructor; discriminate).
  exact (failing_stream_is_caught_by_get_completion_only
           (list string) string unit nat
           (fun _ _ _ => Stream {| chunks := ["One. Tw"; "o"];
                                   failure := Some (AnException "timed out") |})
           (fun messages limit => inl (firstn limit messages)) 8
           false ["Count"] ["Count"] "model" tt
           {| chunks := ["One. Tw"; "o"]; failure := Some (AnException "timed out") |}
           "timed out" true [tag]
           eq_refl eq_refl eq_refl eq_refl W).
Defined.

(** ** The set-up of the client *)

Lemma api_name_supported (c : client_class) : In (api_name c) supported_apis.
Proof. destruct c; simpl; auto 13. Qed.

Lemma api_name_injective (c1 c2 : client_class) :
  api_name c1 = api_name c2 -> c1 = c2.
Proof. destruct c1, c2; simpl; intros H; (reflexivity || discriminate H). Qed.

Lemma setup_client_result (verbose : bool) (cfg : config) :
  (exists c,
     COMPLETIONS_API cfg = api_name c
     /\ _setup_client verbose cfg
        = inl ({| class_of := c; base_url := configured_url cfg c;
                  client_verbose := verbose |},
               missing_url_lines cfg c))
  \/ (~ In (COMPLETIONS_API cfg) supported_apis
      /\ _setup_client verbose cfg
         = inr "Unsupported completion API service configured").
Proof.
  destruct cfg as [api lm ol]. unfold _setup_client. cbn [COMPLETIONS_API].
  cbv zeta.
  assert (Pick : forall c r,
             api = api_name c ->
             r = inl ({| class_of := c;
                         base_url := configured_url
                                       {| COMPLETIONS_API := api;
                                          LM_STUDIO_API_BASE_URL := lm;
                                          OLLAMA_API_BASE_URL := ol |} c;
                         client_verbose := verbose |},
                      missing_url_lines
                        {| COMPLETIONS_API := api;
                           LM_STUDIO_API_BASE_URL := lm;
                           OLLAMA_API_BASE_URL := ol |} c) ->
             (exists c',
                api = api_name c'
                /\ r = inl ({| class_of := c';
                               base_url := configured_url
                                             {| COMPLETIONS_API := api;
                                                LM_STUDIO_API_BASE_URL := lm;
                                                OLLAMA_API_BASE_URL := ol |} c';
                               client_verbose := verbose |},
                            missing_url_lines
                              {| COMPLETIONS_API := api;
                                 LM_STUDIO_API_BASE_URL := lm;
                                 OLLAMA_API_BASE_URL := ol |} c'))
             \/ (~ In api supported_apis
                 /\ r = inr "Unsupported completion API service configured"))
    by (intros c r E1 E2; left; exists c; auto).
  destruct (String.eqb_spec api "openai");
    [now apply (Pick OpenAIClient)|].
  destruct (String.eqb_spec api "together");
    [now apply (Pick TogetherAIClient)|].
  destruct (String.eqb_spec api "anthropic");
    [now apply (Pick AnthropicClient)|].
  destruct (String.eqb_spec api "perplexity");
    [now apply (Pick PerplexityClient)|].
  destruct (String.eqb_spec api "openrouter");
    [now apply (Pick OpenRouterClient)|].
  destruct (String.eqb_spec api "groq");
    [now apply (Pick GroqClient)|].
  destruct (String.eqb_spec api "tabbyapi");
    [now apply (Pick TabbyApiClient)|].
  destruct (String.eqb_spec api "google");
    [now apply (Pick GeminiClient)|].
  destruct (String.eqb_spec api "portkey");
    [now apply (Pick PortkeyClient)|].
  destruct (String.eqb_spec api "portkey_prompt");
    [now apply (Pick PortkeyPromptClient)|].
  destruct (String.eqb_spec api "lm_studio");
    [apply (Pick LM_StudioClient); [assumption | now destruct lm]|].
  destruct (String.eqb_spec api "ollama");
    [apply (Pick OllamaClient); [assumption | now destruct ol]|].
  right. split; [|reflexivity]. simpl. intuition congruence.
Qed.

(** X11.  [_setup_client] accepts the twelve names of [supported_apis],
    compared as they are written, and raises [ValueError] for every other
    value of [config.COMPLETIONS_API].  The client it makes has the
    manager's [verbose], has a base URL only when it is the LM Studio or
    the Ollama client and the configuration has the URL, and a line is
    printed exactly when such a client is made without it.  Different
    names give clients of different classes. *)
Theorem setup_client_selects_by_name
    (verbose verbose' : bool) (cfg cfg' : config) :
  ((exists c printed, _setup_client verbose cfg = inl (c, printed))
   <-> In (COMPLETIONS_API cfg) supported_apis)
  /\ (~ In (COMPLETIONS_API cfg) supported_apis ->
      _setup_client verbose cfg
      = inr "Unsupported completion API service configured")
  /\ (forall c printed,
        _setup_client verbose cfg = inl (c, printed) ->
        COMPLETIONS_API cfg = api_name (class_of c)
        /\ client_verbose c = verbose
        /\ base_url c = configured_url cfg (class_of c)
        /\ printed = missing_url_lines cfg (class_of c))
  /\ (forall c printed c' printed',
        _setup_client verbose cfg = inl (c, printed) ->
        _setup_client verbose' cfg' = inl (c', printed') ->
        (class_of c = class_of c' <-> COMPLETIONS_API cfg = COMPLETIONS_API cfg')).
Proof.
  assert (Made : forall v g c printed,
             _setup_client v g = inl (c, printed) ->
             COMPLETIONS_API g = api_name (class_of c)
             /\ client_verbose c = v
             /\ base_url c = configured_url g (class_of c)
             /\ printed = missing_url_lines g (class_of c)).
  { intros v g c printed H.
    destruct (setup_client_result v g) as [(k & E & R) | [_ R]];
      rewrite R in H; [|discriminate].
    injection H as <- <-. simpl. auto. }
  split; [|split; [|split]].
  - split.
    + intros (c & printed & H). apply Made in H as [-> _].
      apply api_name_supported.
    + intros I. destruct (setup_client_result verbose cfg) as [(k & _ & R) | [N _]];
        [eauto | contradiction].
  - intros N. destruct (setup_client_result verbose cfg) as [(k & E & _) | [_ R]];
      [|exact R].
    exfalso. apply N. rewrite E. apply api_name_supported.
  - apply Made.
  - intros c printed c' printed' H H'.
    apply Made in H as [E _]. apply Made in H' as [E' _]. rewrite E, E'.
    split; [congruence | apply api_name_injective].
Qed.

Lemma setup_client_selects_by_name_witness :
  let cfg := {| COMPLETIONS_API := "ollama"; LM_STUDIO_API_BASE_URL := None;
                OLLAMA_API_BASE_URL := None |} in
  let made := {| class_of := OllamaClient; base_url := None;
                 client_verbose := true |} in
  "ollama" = api_name (class_of made)
  /\ client_verbose made = true
  /\ base_url made = configured_url cfg (class_of made)
  /\ ["No OLLAMA_API_BASE_URL found in config.py, using default"]
     = missing_url_lines cfg (class_of made).
Proof.
  exact (proj1 (proj2 (proj2 (setup_client_selects_by_name true true
                  {| COMPLETIONS_API := "ollama"; LM_STUDIO_API_BASE_URL := None;
                     OLLAMA_API_BASE_URL := None |}
                  {| COMPLETIONS_API := "ollama"; LM_STUDIO_API_BASE_URL := None;
                     OLLAMA_API_BASE_URL := None |})))
           {| class_of := OllamaClient; base_url := None; client_verbose := true |}
           ["No OLLAMA_API_BASE_URL found in config.py, using default"]
           eq_refl).
Defined.

(** ** The sentence callback does not steer the segmentation *)

Lemma marker_calls_snoc (log : list call) (c : call) :
  marker_calls (log ++ [c])%list
  = match c with
    | MarkerCall _ _ => (marker_calls log ++ [c])%list
    | SentenceCall _ => marker_calls log
    end.
Proof.
  unfold marker_calls. rewrite filter_app. destruct c; simpl;
    [apply app_nil_r | reflexivity].
Qed.

Lemma same_segmentation_emit (scb1 scb2 : bool) (text1 text2 : string)
    (st1 st2 : state) :
  same_segmentation st1 st2 ->
  same_segmentation (emit_sentence scb1 text1 st1) (emit_sentence scb2 text2 st2).
Proof.
  intros (F & B & A & C). unfold same_segmentation.
  rewrite !full_text_emit_sentence, !buffer_emit_sentence,
    !active_markers_emit_sentence. repeat split; try assumption.
  unfold emit_sentence.
  destruct (scb1 && _), (scb2 && _); simpl; rewrite ?marker_calls_snoc; exact C.
Qed.

Lemma same_segmentation_invoke (callback : option nat) (text : string)
    (st1 st2 : state) :
  same_segmentation st1 st2 ->
  same_segmentation (invoke_marker callback text st1)
    (invoke_marker callback text st2).
Proof.
  intros (F & B & A & C). destruct callback as [k|]; [|now repeat split].
  repeat split; try assumption. simpl. rewrite !marker_calls_snoc. now rewrite C.
Qed.

Lemma same_segmentation_set_buffer (b : string) (st1 st2 : state) :
  same_segmentation st1 st2 ->
  same_segmentation (set_buffer b st1) (set_buffer b st2).
Proof. intros (F & B & A & C). now repeat split. Qed.

Lemma same_segmentation_set_active (l : list marker) (st1 st2 : state) :
  same_segmentation st1 st2 ->
  same_segmentation (set_active_markers l st1) (set_active_markers l st2).
Proof. intros (F & B & A & C). now repeat split. Qed.

Lemma scan_active_markers_same (ms : list marker) :
  forall i st1 st2,
  same_segmentation st1 st2 ->
  same_outcome (fun p1 p2 => fst p1 = fst p2 /\ same_segmentation (snd p1) (snd p2))
    (scan_active_markers i ms st1) (scan_active_markers i ms st2).
Proof.
  induction ms as [|[[start end_] callback] ms IH]; intros i st1 st2 H.
  - simpl. auto.
  - cbn [scan_active_markers]. pose proof H as (F & B & A & C). rewrite <- B.
    destruct (contains end_ (buffer st1)); [|now apply IH].
    destruct (partition end_ (buffer st1)) as [[[marked_text sep] rest]|];
      [|simpl; auto].
    destruct (truthy (strip marked_text)); [|now apply IH].
    simpl. split; [reflexivity|].
    now apply same_segmentation_set_buffer, same_segmentation_invoke.
Qed.

Lemma scan_marker_tuples_same (ms : list marker) :
  forall st1 st2,
  same_segmentation st1 st2 ->
  same_outcome (fun o1 o2 => match o1, o2 with
                             | Some s1, Some s2 => same_segmentation s1 s2
                             | None, None => True
                             | _, _ => False
                             end)
    (scan_marker_tuples ms st1) (scan_marker_tuples ms st2).
Proof.
  induction ms as [|[[start end_] callback] ms IH]; intros st1 st2 H.
  - simpl. auto.
  - cbn [scan_marker_tuples]. pose proof H as (F & B & A & C). rewrite <- B, <- A.
    destruct (contains start (buffer st1)); [|now apply IH].
    destruct (partition start (buffer st1)) as [[[before sep] rest]|];
      [|simpl; auto].
    simpl. now apply same_segmentation_set_active, same_segmentation_set_buffer.
Qed.

Lemma loop_body_same (scb1 scb2 : bool) (marker_tuples : list marker)
    (st1 st2 : state) :
  same_segmentation st1 st2 ->
  same_outcome (fun p1 p2 => fst p1 = fst p2 /\ same_segmentation (snd p1) (snd p2))
    (loop_body scb1 marker_tuples st1) (loop_body scb2 marker_tuples st2).
Proof.
  intros H. pose proof H as (F & B & A & C). unfold loop_body. rewrite <- A.
  destruct (active_markers st1) as [|a l] eqn:A1.
  - unfold process_new_markers_or_sentences.
    pose proof (scan_marker_tuples_same marker_tuples st1 st2 H) as Sc.
    destruct (scan_marker_tuples marker_tuples st1) as [[s1|]| |],
             (scan_marker_tuples marker_tuples st2) as [[s2|]| |];
      simpl in Sc; try contradiction; simpl; auto.
    unfold process_sentence. rewrite <- B.
    destruct (sentence_pattern_match (buffer st1)) as [p|]; simpl; auto.
    split; [reflexivity|].
    now apply same_segmentation_set_buffer, same_segmentation_emit.
  - unfold process_active_markers. rewrite <- A, A1.
    pose proof (scan_active_markers_same (a :: l) 0%Z st1 st2 H) as Sc.
    destruct (scan_active_markers 0 (a :: l) st1) as [[j1 s1]| |],
             (scan_active_markers 0 (a :: l) st2) as [[j2 s2]| |];
      simpl in Sc; try contradiction; simpl; auto.
    destruct Sc as [<- Hs]. pose proof Hs as (F' & B' & A' & C').
    destruct (0 <=? j1)%Z; [|simpl; auto].
    rewrite <- A'. destruct (pop (Z.to_nat j1) (active_markers s1)); simpl.
    + split; [reflexivity | now apply same_segmentation_set_active].
    + auto.
Qed.

Lemma consume_loop_same (scb1 scb2 : bool) (marker_tuples : list marker)
    (fuel : nat) :
  forall st1 st2,
  same_segmentation st1 st2 ->
  same_outcome same_segmentation
    (consume_loop fuel scb1 marker_tuples st1)
    (consume_loop fuel scb2 marker_tuples st2).
Proof.
  induction fuel as [|fuel IH]; intros st1 st2 H; [exact I|].
  cbn [consume_loop]. pose proof H as (F & B & A & C). rewrite <- B.
  destruct (truthy (buffer st1)); [|exact H].
  pose proof (loop_body_same scb1 scb2 marker_tuples st1 st2 H) as L.
  destruct (loop_body scb1 marker_tuples st1) as [[f1 s1]| |],
           (loop_body scb2 marker_tuples st2) as [[f2 s2]| |];
    simpl in L; try contradiction; auto.
  destruct L as [<- Hs]. destruct f1; [now apply IH | exact Hs].
Qed.

Lemma stream_loop_same (scb1 scb2 : bool) (marker_tuples : list marker)
    (fuel : nat) (text_stream : list string) :
  forall st1 st2,
  same_segmentation st1 st2 ->
  same_outcome same_segmentation
    (stream_loop fuel scb1 marker_tuples text_stream st1)
    (stream_loop fuel scb2 marker_tuples text_stream st2).
Proof.
  induction text_stream as [|chunk text_stream IH]; intros st1 st2 H; [exact H|].
  cbn [stream_loop].
  assert (Ha : same_segmentation (append_chunk chunk st1) (append_chunk chunk st2)).
  { destruct H as (F & B & A & C). repeat split; simpl; congruence. }
  pose proof (consume_loop_same scb1 scb2 marker_tuples fuel _ _ Ha) as Cl.
  destruct (consume_loop fuel scb1 marker_tuples (append_chunk chunk st1)),
           (consume_loop fuel scb2 marker_tuples (append_chunk chunk st2));
    simpl in Cl; try contradiction; auto.
Qed.

Lemma flush_loop_same (scb1 scb2 : bool) (fuel : nat) :
  forall st1 st2,
  same_segmentation st1 st2 ->
  same_outcome same_segmentation (flush_loop fuel scb1 st1) (flush_loop fuel scb2 st2).
Proof.
  induction fuel as [|fuel IH]; intros st1 st2 H; [exact I|].
  cbn [flush_loop]. pose proof H as (F & B & A & C). rewrite <- B.
  destruct (truthy (buffer st1)); [|exact H].
  unfold flush_body. rewrite <- A. destruct (active_markers st1) as [|a l].
  - simpl. now apply same_segmentation_emit.
  - apply IH. now apply same_segmentation_set_active.
Qed.

(** X12.  Giving or leaving out the sentence callback changes nothing for
    the marker callbacks: the two runs make the same marker calls in the
    same order, and end in the same way with the same returned text. *)
Theorem sentence_callback_does_not_steer
    (text_stream : list string) (scb1 scb2 : bool) (marker_tuples : list marker) :
  marker_calls (calls_of snd (process_text_stream text_stream scb1 marker_tuples))
  = marker_calls (calls_of snd (process_text_stream text_stream scb2 marker_tuples))
  /\ returned (process_text_stream text_stream scb1 marker_tuples)
     = returned (process_text_stream text_stream scb2 marker_tuples).
Proof.
  unfold process_text_stream, process_text_stream_fuel.
  assert (H0 : same_segmentation initial initial) by now repeat split.
  pose proof (stream_loop_same scb1 scb2 marker_tuples (enough_fuel text_stream)
                text_stream initial initial H0) as Sl.
  destruct (stream_loop (enough_fuel text_stream) scb1 marker_tuples text_stream initial)
    as [s1|e1 l1|],
    (stream_loop (enough_fuel text_stream) scb2 marker_tuples text_stream initial)
    as [s2|e2 l2|]; simpl in Sl; try contradiction.
  - pose proof (flush_loop_same scb1 scb2 (enough_fuel text_stream) s1 s2 Sl) as Fl.
    destruct (flush_loop (enough_fuel text_stream) scb1 s1) as [t1|x1 m1|],
             (flush_loop (enough_fuel text_stream) scb2 s2) as [t2|x2 m2|];
      simpl in Fl; try contradiction; simpl.
    + destruct Fl as (F & _ & _ & C). now rewrite F, C.
    + now destruct Fl.
    + auto.
  - simpl. now destruct Sl.
  - auto.
Qed.

(** ** The calls follow the input *)

Lemma in_order_extend (l : list string) (s b : string) :
  occur_in_order l s -> occur_in_order l (s ++ b).
Proof.
  induction 1 as [s | t ts a s' H IH]; [constructor|].
  rewrite !append_assoc. now constructor.
Qed.

Lemma in_order_snoc (l : list string) (c t g : string) :
  occur_in_order l c -> occurs_in t g ->
  occur_in_order (l ++ [t])%list (c ++ g).
Proof.
  intros H (a & b & ->). induction H as [s | t0 ts a0 s' H IH].
  - simpl. rewrite <- append_assoc. repeat constructor.
  - simpl. rewrite !append_assoc. now constructor.
Qed.

(** What one pass does: the text it takes from the front of the buffer,
    and the call it makes, if any, with a text from within it. *)
Lemma body_step_effect (sentence_callback : bool) (marker_tuples : list marker)
    (st : state) (f : flow) (st' : state) :
  body_step sentence_callback marker_tuples st f st' ->
  exists gone,
    buffer st = gone ++ buffer st'
    /\ (calls st' = calls st
        \/ exists c, calls st' = (calls st ++ [c])%list
                     /\ occurs_in (call_text c) gone).
Proof.
  intros [st0 k m l t r N P Hne Hb T | st0 A | st0 m b r A I Hne Hb
         | st0 sentence A M | st0 A];
    try (exists ""; split; [reflexivity | now left]).
  - exists (t ++ marker_end m). cbn [buffer calls set_active_markers set_buffer].
    split; [now rewrite append_assoc|].
    destruct (marker_callback m) as [j|]; [|now left].
    right. exists (MarkerCall j t). split; [reflexivity|].
    exists "", (marker_end m). reflexivity.
  - exists (b ++ marker_start m). cbn [buffer calls set_active_markers set_buffer].
    split; [now rewrite append_assoc | now left].
  - exists sentence. cbn [buffer calls set_buffer].
    split; [now apply sentence_pattern_match_split in M as [_ Hb]|].
    unfold emit_sentence. destruct (_ && _); [|now left].
    right. exists (SentenceCall (strip sentence)). split; [reflexivity|].
    apply strip_occurs.
Qed.

Section Order.

Variable sentence_callback : bool.
Variable marker_tuples : list marker.

Lemma passes_ordered (st st' : state) :
  passes sentence_callback marker_tuples st st' -> ordered st -> ordered st'.
Proof.
  induction 1 as [st | st f st1 st2 B L P IH]; [auto|].
  intros (consumed & Hf & Ho). apply IH.
  apply loop_body_step in L.
  pose proof (body_step_full_text _ _ _ _ _ L) as Ft.
  destruct (body_step_effect _ _ _ _ _ L) as (gone & Hg & [E | (c & E & Oc)]).
  - exists (consumed ++ gone). rewrite Ft, Hf, Hg, E. split.
    + now rewrite append_assoc.
    + now apply in_order_extend.
  - exists (consumed ++ gone). rewrite Ft, Hf, Hg, E. split.
    + now rewrite append_assoc.
    + rewrite map_app. simpl. now apply in_order_snoc.
Qed.

Lemma stream_loop_ordered (fuel : nat) (text_stream : list string) :
  forall st,
  ordered st ->
  match stream_loop fuel sentence_callback marker_tuples text_stream st with
  | Ok st' => ordered st'
  | Raise _ log =>
      occur_in_order (map call_text log)
        (full_text st ++ String.concat "" text_stream)
  | Timeout => True
  end.
Proof.
  induction text_stream as [|chunk text_stream IH]; intros st H; [exact H|].
  cbn [stream_loop].
  assert (Ha : ordered (append_chunk chunk st)).
  { destruct H as (consumed & Hf & Ho). exists consumed. simpl.
    split; [now rewrite Hf, append_assoc | exact Ho]. }
  destruct (consume_loop fuel sentence_callback marker_tuples
              (append_chunk chunk st)) as [st1|e log|] eqn:C; [| |exact I].
  - apply consume_loop_passes in C.
    pose proof (passes_full_text _ _ _ _ C) as Ft.
    specialize (IH st1 (passes_ordered _ _ C Ha)).
    destruct (stream_loop fuel sentence_callback marker_tuples text_stream st1);
      [exact IH | | exact I].
    rewrite Ft in IH. simpl in IH. now rewrite concat_cons, <- append_assoc.
  - apply consume_loop_raise in C as (st1 & P & L).
    apply loop_body_raise in L as (_ & -> & _).
    pose proof (passes_full_text _ _ _ _ P) as Ft.
    destruct (passes_ordered _ _ P Ha) as (consumed & Hf & Ho).
    rewrite concat_cons, <- append_assoc.
    change (full_text st ++ chunk) with (full_text (append_chunk chunk st)).
    rewrite <- Ft, Hf. now apply in_order_extend, in_order_extend.
Qed.

End Order.

(** X4.  The routine invents no text and keeps the order of the input:
    the texts of the calls of a run, marker calls and sentence calls
    alike, occur in the joined chunks one after the other, in the order of
    the calls and without overlap. *)
Theorem calls_follow_the_input
    (text_stream : list string) (sentence_callback : bool)
    (marker_tuples : list marker) :
  occur_in_order
    (map call_text
       (calls_of snd (process_text_stream text_stream sentence_callback marker_tuples)))
    (String.concat "" text_stream).
Proof.
  assert (H0 : ordered initial) by (exists ""; split; [reflexivity | constructor]).
  pose proof (stream_loop_ordered sentence_callback marker_tuples
                (enough_fuel text_stream) text_stream initial H0) as H.
  destruct (stream_loop (enough_fuel text_stream) sentence_callback marker_tuples
              text_stream initial) as [st|e log|] eqn:Sl.
  - destruct H as (consumed & Hf & Ho).
    apply process_text_stream_flush in Sl as [T ->]. simpl.
    rewrite <- T, Hf, map_app. unfold sentence_calls.
    destruct (_ && _); simpl.
    + apply in_order_snoc; [exact Ho | apply strip_occurs].
    + rewrite app_nil_r. now apply in_order_extend.
  - unfold process_text_stream, process_text_stream_fuel. rewrite Sl. exact H.
  - unfold process_text_stream, process_text_stream_fuel. rewrite Sl. constructor.
Qed.

(** ** Text without a terminator *)

Lemma has_terminator_append (a b : string) :
  has_terminator (a ++ b) = has_terminator a || has_terminator b.
Proof.
  induction a as [|c a IH]; [reflexivity|]. simpl. now rewrite IH, orb_assoc.
Qed.

Lemma no_terminator_no_match (s : string) :
  has_terminator s = false -> lazy_terminator s = None.
Proof.
  induction s as [|c s IH]; [reflexivity|]. simpl.
  intros H. apply orb_false_iff in H as [Hc Hs]. now rewrite Hc, (IH Hs).
Qed.

Lemma contains_extend (sub a b : string) :
  contains sub a = true -> contains sub (a ++ b) = true.
Proof.
  intros H. apply contains_split_first in H as [[x y] E].
  apply split_first_spec in E. rewrite E, !append_assoc. apply contains_append.
Qed.

Lemma lstrip_blank_prefix (pre x : string) :
  lstrip pre = "" -> lstrip (pre ++ x) = lstrip x.
Proof.
  induction pre as [|c pre IH]; [reflexivity|]. simpl.
  destruct (isspace c); [exact IH | discriminate].
Qed.

Section Waiting.

Variable sentence_callback : bool.
Variable marker_tuples : list marker.
Variable text : string.

Hypothesis no_terminator : has_terminator text = false.
Hypothesis no_start_token :
  Forall (fun m => contains (marker_start m) text = false) marker_tuples.

Lemma waiting_consume_loop (fuel : nat) :
  forall st,
  active_markers st = [] -> calls st = [] ->
  (exists pre later,
     full_text st = pre ++ buffer st /\ lstrip pre = ""
     /\ text = full_text st ++ later) ->
  String.length (buffer st) < fuel ->
  exists st',
    consume_loop fuel sentence_callback marker_tuples st = Ok st'
    /\ active_markers st' = [] /\ calls st' = []
    /\ full_text st' = full_text st
    /\ exists pre, full_text st' = pre ++ buffer st' /\ lstrip pre = "".
Proof.
  induction fuel as [|fuel IH]; intros st A C (pre & later & Hf & Hp & Ht) Hl; [lia|].
  cbn [consume_loop]. destruct (truthy (buffer st)) eqn:B;
    [|exists st; repeat split; try assumption; exists pre; split; assumption].
  assert (Tb : has_terminator (buffer st) = false).
  { pose proof no_terminator as H. rewrite Ht, Hf, !has_terminator_append in H.
    apply orb_false_iff in H as [H _]. now apply orb_false_iff in H as [_ H]. }
  assert (Mb : scan_marker_tuples marker_tuples st = Ok None).
  { apply scan_marker_tuples_none. eapply Forall_impl; [|exact no_start_token].
    intros m Hm. simpl in Hm.
    destruct (contains (marker_start m) (buffer st)) eqn:Cb; [|reflexivity].
    rewrite Ht, Hf in Hm.
    now rewrite (contains_extend _ _ later (contains_suffix _ pre _ Cb)) in Hm. }
  unfold loop_body, process_new_markers_or_sentences, process_sentence,
    sentence_pattern_match.
  rewrite A, Mb, (no_terminator_no_match _ Tb).
  destruct (buffer st) as [|c rest] eqn:Eb; [discriminate|].
  destruct (Ascii.eqb_spec c newline) as [->|Hc];
    [|exists st; repeat split; try assumption; exists pre; rewrite Eb;
      split; assumption].
  assert (Em : emit_sentence sentence_callback (String newline "") st = st).
  { unfold emit_sentence. change (truthy (strip (String newline ""))) with false.
    now rewrite andb_false_r. }
  rewrite Em. cbn [String.length drop].
  destruct (IH (set_buffer rest st)) as (st' & Cl & A' & C' & F' & P');
    try assumption.
  - exists (pre ++ String newline ""), later. cbn [full_text buffer set_buffer].
    split; [now rewrite Hf, append_assoc|].
    split; [now rewrite lstrip_blank_prefix | exact Ht].
  - cbn [buffer set_buffer]. simpl in Hl. lia.
  - exists st'. auto.
Qed.

Lemma waiting_stream_loop (fuel : nat) (text_stream : list string) :
  forall st,
  active_markers st = [] -> calls st = [] ->
  (exists pre, full_text st = pre ++ buffer st /\ lstrip pre = "") ->
  text = full_text st ++ String.concat "" text_stream ->
  String.length (buffer st) + String.length (String.concat "" text_stream) < fuel ->
  exists st',
    stream_loop fuel sentence_callback marker_tuples text_stream st = Ok st'
    /\ calls st' = [] /\ full_text st' = text
    /\ exists pre, full_text st' = pre ++ buffer st' /\ lstrip pre = "".
Proof.
  induction text_stream as [|chunk text_stream IH];
    intros st A C (pre & Hf & Hp) Ht Hl.
  - exists st. simpl in Ht. rewrite append_nil_r in Ht. eauto 8.
  - cbn [stream_loop]. rewrite concat_cons in Ht, Hl. rewrite length_append in Hl.
    destruct (waiting_consume_loop fuel (append_chunk chunk st))
      as (st1 & Cl & A1 & C1 & F1 & P1); try assumption.
    + exists pre, (String.concat "" text_stream). simpl.
      split; [now rewrite Hf, append_assoc|]. split; [exact Hp|].
      now rewrite append_assoc.
    + simpl. rewrite length_append. lia.
    + rewrite Cl. apply IH; try assumption.
      * rewrite F1. simpl. now rewrite append_assoc.
      * apply consume_loop_passes, passes_buffer in Cl. simpl in Cl.
        rewrite length_append in Cl. lia.
Qed.

End Waiting.

(** X13.  A text without ['.'], ['!'] and ['?'], in which no start-token
    occurs, is held back until the stream ends, however it is cut into
    chunks: nothing is called while the chunks are consumed, and the final
    loop hands the whole text, stripped and if not blank, to the sentence
    callback. *)
Theorem text_without_terminator_waits
    (text_stream : list string) (sentence_callback : bool)
    (marker_tuples : list marker) :
  has_terminator (String.concat "" text_stream) = false ->
  Forall (fun m => contains (marker_start m) (String.concat "" text_stream) = false)
    marker_tuples ->
  streamed_calls text_stream sentence_callback marker_tuples = []
  /\ process_text_stream text_stream sentence_callback marker_tuples
     = Ok (String.concat "" text_stream,
           if sentence_callback && truthy (strip (String.concat "" text_stream))
           then [SentenceCall (strip (String.concat "" text_stream))]
           else []).
Proof.
  intros Ht Hm.
  destruct (waiting_stream_loop sentence_callback marker_tuples
              (String.concat "" text_stream) Ht Hm
              (enough_fuel text_stream) text_stream initial)
    as (st & Sl & C & F & pre & Hf & Hp); try reflexivity.
  - now exists "".
  - unfold enough_fuel. simpl. lia.
  - unfold streamed_calls. rewrite Sl. split; [exact C|].
    apply process_text_stream_flush in Sl as [_ ->]. rewrite C, F. simpl.
    unfold sentence_calls.
    assert (E : strip (buffer st) = strip (String.concat "" text_stream)).
    { rewrite <- F, Hf. unfold strip. now rewrite lstrip_blank_prefix. }
    now rewrite E.
Qed.

Lemma text_without_terminator_waits_witness :
  streamed_calls ["no full stop"; String newline " yet"; " <tag"] true [tag] = []
  /\ process_text_stream ["no full stop"; String newline " yet"; " <tag"] true [tag]
     = Ok ("no full stop" ++ String newline " yet <tag",
           [SentenceCall ("no full stop" ++ String newline " yet <tag")]).
Proof.
  apply (text_without_terminator_waits
           ["no full stop"; String newline " yet"; " <tag"] true [tag]).
  - reflexivity.
  - repeat constructor.
Defined.
